(** * Workflow diagnostics: YAML-AST path matching and command-range extraction

    A shallow embedding of [src/workflow/diagnostics.ts]: the node locator
    [findNode], the wildcard collector [getAllMatchingNodes], the
    decomposer [getNodeCommandRanges], the document recognition test of
    [getSupportedDocumentAst], the two queries registered with the
    command-runner extension, the one-shot registration
    [registerFigSupport], and the diagnostics, hover and completion
    providers. *)

From Stdlib Require Import String Ascii.
From Stdlib Require Import ZArith NArith List Bool Arith Lia.
Import ListNotations.

Set Implicit Arguments.
Set Warnings "-register-all".
Open Scope Z_scope.

(** ** JavaScript strings

    A JavaScript string is a sequence of UTF-16 code units; indices and
    lengths count code units. *)

Definition jsstring := list N.

Fixpoint js (s : string) : jsstring :=
  match s with
  | EmptyString => []
  | String c r => N_of_ascii c :: js r
  end.

Fixpoint jsstring_eqb (a b : jsstring) : bool :=
  match a, b with
  | [], [] => true
  | x :: a', y :: b' => N.eqb x y && jsstring_eqb a' b'
  | _, _ => false
  end.

(** [if (s)] on a string: the empty string is falsy. *)
Definition truthy (s : jsstring) : bool :=
  match s with [] => false | _ :: _ => true end.

(** ** Exceptions *)

Inductive Exception : Type :=
| TypeError
| LoaderError.

(** The outcome of a call: a value, or the exception it raised. *)
Inductive Completion (A : Type) : Type :=
| Return (a : A)
| Throw (e : Exception).

Arguments Return {A} a.
Arguments Throw {A} e.

Definition bind (A B : Type) (c : Completion A) (k : A -> Completion B)
  : Completion B :=
  match c with
  | Return a => k a
  | Throw e => Throw e
  end.

Notation "x <- c ;; k" := (bind c (fun x => k))
  (at level 61, c at next level, right associativity).

(** [xs.flatMap(f)], stopping at the first call that raises. *)
Fixpoint flatMapM (A B : Type) (f : A -> Completion (list B)) (xs : list A)
  : Completion (list B) :=
  match xs with
  | [] => Return []
  | x :: xs' =>
    ys <- f x ;;
    zs <- flatMapM f xs' ;;
    Return (ys ++ zs)
  end.

(** ** AST nodes

    The parser's node is one object shape with optional fields; a field
    that is [undefined] (or [null]) is [None]. [key] holds [node.key?.value],
    the string of the key scalar of a mapping entry. [value] is the value
    node of a mapping entry (or the target of an anchor reference); the
    string a scalar carries in its own [value] field has no
    [startPosition], [mappings] or [items] and is never pushed by the
    collector, so it is not represented. An element of [items] or of
    [mappings] may be [null]: the parser puts [null] in [items] for a
    sequence entry without content, a [-] alone on its line. *)

Inductive YAMLNode : Type := mkNode {
  startPosition : Z;
  endPosition : Z;
  key : option jsstring;
  value : option YAMLNode;
  mappings : option (list (option YAMLNode));
  items : option (list (option YAMLNode));
  rawValue : option jsstring
}.

(** [node.mappings ?? node.value?.mappings ?? node.value?.items ?? []] *)
Definition children (node : YAMLNode) : list (option YAMLNode) :=
  match mappings node with
  | Some l => l
  | None =>
    match value node with
    | Some v =>
      match mappings v with
      | Some l => l
      | None => match items v with Some l => l | None => [] end
      end
    | None => []
    end
  end.

(** [const key = node.key?.value; if (key) ...] *)
Definition truthyKey (node : YAMLNode) : option jsstring :=
  match key node with
  | Some k => if truthy k then Some k else None
  | None => None
  end.

Definition containsOffset (node : YAMLNode) (position : Z) : bool :=
  (startPosition node <=? position) && (position <=? endPosition node).

(** The same selection with the loop over the children as a continuation,
    so that a traversal may call itself on each child. *)
Definition overChildren (A : Type) (node : YAMLNode)
  (k : list (option YAMLNode) -> A) : A :=
  match mappings node with
  | Some l => k l
  | None =>
    match value node with
    | Some v =>
      match mappings v with
      | Some l => k l
      | None => match items v with Some l => k l | None => k [] end
      end
    | None => k []
    end
  end.

Definition optList (A : Type) (o : option A) : list A :=
  match o with Some a => [a] | None => [] end.

(** [f] on an element that is a node, nothing on [null]. *)
Definition onSome (A B : Type) (f : A -> list B) (o : option A) : list B :=
  match o with Some a => f a | None => [] end.

(** The children that are nodes. *)
Definition childNodes (node : YAMLNode) : list YAMLNode :=
  flat_map (@optList YAMLNode) (children node).

(** No [null] among the children, anywhere in the tree of children. *)
Fixpoint noNullChild (node : YAMLNode) : bool :=
  overChildren node (fun cs =>
    forallb (fun child =>
               match child with
               | Some c => noNullChild c
               | None => false
               end) cs).

(** ** The locator: [findNode]

    [path] is one array shared by all the calls of [find]; it is threaded
    through them and returned with the node. [find] reads
    [node.startPosition] first: called on a child that is [null] it raises
    a TypeError, which ends the whole search. *)

Fixpoint find (position : Z) (node : YAMLNode) (path : list jsstring)
  {struct node} : Completion (option YAMLNode * list jsstring) :=
  if containsOffset node position then
    let path1 := path ++ optList (truthyKey node) in
    overChildren node (fun cs =>
      (fix loop (cs : list (option YAMLNode)) (p : list jsstring)
         : Completion (option YAMLNode * list jsstring) :=
         match cs with
         | [] => Return (Some node, p)
         | None :: _ => Throw TypeError
         | Some child :: rest =>
           match find position child p with
           | Return (Some foundNode, p') => Return (Some foundNode, p')
           | Return (None, p') => loop rest p'
           | Throw e => Throw e
           end
         end) cs path1)
  else Return (None, path).

Definition findNode (input : YAMLNode) (position : Z)
  : Completion (option YAMLNode * list jsstring) :=
  find position input [].

(** The [for] loop of [find] over the children of [node]. *)
Fixpoint findLoop (position : Z) (node : YAMLNode)
  (cs : list (option YAMLNode)) (p : list jsstring)
  : Completion (option YAMLNode * list jsstring) :=
  match cs with
  | [] => Return (Some node, p)
  | None :: _ => Throw TypeError
  | Some child :: rest =>
    match find position child p with
    | Return (Some foundNode, p') => Return (Some foundNode, p')
    | Return (None, p') => findLoop position node rest p'
    | Throw e => Throw e
    end
  end.

(** ** The collector: [getAllMatchingNodes] *)

Definition star : jsstring := js "*".

(** [expectedKey !== s], where [expectedKey = path[depth]] is [undefined]
    past the end of the pattern. *)
Definition strictNe (expectedKey : option jsstring) (s : jsstring) : bool :=
  match expectedKey with
  | Some e => negb (jsstring_eqb e s)
  | None => true
  end.

(** [depth === path.length - 1] *)
Definition isLastDepth (path : list jsstring) (depth : nat) : bool :=
  Z.of_nat depth =? Z.of_nat (length path) - 1.

(** [collect] reads [node.key] first: called on a child that is [null] it
    raises a TypeError, and what was collected is lost with the call. *)
Fixpoint collect (path : list jsstring) (node : YAMLNode) (depth : nat)
  (nodes : list YAMLNode) {struct node} : Completion (list YAMLNode) :=
  let expectedKey := nth_error path depth in
  let descend (nextDepth : nat) :=
    overChildren node (fun cs =>
      (fix loop (cs : list (option YAMLNode)) (acc : list YAMLNode)
         : Completion (list YAMLNode) :=
         match cs with
         | [] => Return acc
         | None :: _ => Throw TypeError
         | Some child :: rest =>
           match collect path child nextDepth acc with
           | Return acc' => loop rest acc'
           | Throw e => Throw e
           end
         end) cs nodes) in
  match truthyKey node with
  | Some k =>
    if strictNe expectedKey star && strictNe expectedKey k then Return nodes
    else if isLastDepth path depth
         then Return (nodes ++ optList (value node))
         else descend (S depth)
  | None => descend depth
  end.

Definition getAllMatchingNodes (input : YAMLNode) (path : list jsstring)
  : Completion (list YAMLNode) :=
  collect path input 0 [].

(** The [for] loop of [collect]. *)
Fixpoint collectLoop (path : list jsstring) (cs : list (option YAMLNode))
  (nextDepth : nat) (acc : list YAMLNode) : Completion (list YAMLNode) :=
  match cs with
  | [] => Return acc
  | None :: _ => Throw TypeError
  | Some child :: rest =>
    match collect path child nextDepth acc with
    | Return acc' => collectLoop path rest nextDepth acc'
    | Throw e => Throw e
    end
  end.

(** ** Key-paths, as the specification words them

    The tree is the one the traversals walk: the children of a node are
    the nodes of [children node]. [keyOf] says which nodes carry a key:
    [key] counts every mapping key, [truthyKey] the keys the code's
    [if (key)] lets through. *)

Section KeyPaths.
Variable keyOf : YAMLNode -> option jsstring.

(** Every node below [node] in depth-first document order, with the keys
    of the keyed nodes from the start of the walk down to it. *)
Fixpoint walk (prefix : list jsstring) (node : YAMLNode) {struct node}
  : list (list jsstring * YAMLNode) :=
  let p := prefix ++ optList (keyOf node) in
  (p, node) :: overChildren node (fun cs => flat_map (onSome (walk p)) cs).

Definition segmentMatches (expected k : jsstring) : bool :=
  jsstring_eqb expected star || jsstring_eqb expected k.

(** Equal lengths and every segment matching. *)
Fixpoint pathMatches (pattern path : list jsstring) : bool :=
  match pattern, path with
  | [], [] => true
  | e :: pattern', k :: path' =>
    segmentMatches e k && pathMatches pattern' path'
  | _, _ => false
  end.

Definition matchedValue (pattern : list jsstring)
  (entry : list jsstring * YAMLNode) : list YAMLNode :=
  match keyOf (snd entry) with
  | Some _ =>
    if pathMatches pattern (fst entry) then optList (value (snd entry))
    else []
  | None => []
  end.

(** The value-nodes of the keyed nodes whose key-path matches. *)
Definition collectAllSpec (root : YAMLNode) (pattern : list jsstring)
  : list YAMLNode :=
  flat_map (matchedValue pattern) (walk [] root).

Definition chainKeys (chain : list YAMLNode) : list jsstring :=
  flat_map (fun n => optList (keyOf n)) chain.
End KeyPaths.


(** The values of the matching nodes at and below [node], the pattern read
    from [depth] on. *)
Definition valuesBelow (path : list jsstring) (depth : nat)
  (node : YAMLNode) : list YAMLNode :=
  flat_map (matchedValue truthyKey (skipn depth path))
           (walk truthyKey [] node).

(** A chain of nodes from [root] down to [node], each a child of the one
    before. *)
Inductive treePath : YAMLNode -> list YAMLNode -> YAMLNode -> Prop :=
| treePath_here : forall n, treePath n [n] n
| treePath_down : forall n c chain r,
    In (Some c) (children n) -> treePath c chain r ->
    treePath n (n :: chain) r.

(** A child the loop of [find] passes over: a node whose span does not
    contain the offset. *)
Definition passedOver (position : Z) (child : option YAMLNode) : Prop :=
  match child with
  | Some c => containsOffset c position = false
  | None => False
  end.

(** The chain the locator follows: from each node to its first child whose
    span contains the offset, the children before it being nodes, down to
    a node all of whose children are nodes that do not contain it. *)
Inductive descent (position : Z)
  : YAMLNode -> list YAMLNode -> YAMLNode -> Prop :=
| descent_here : forall n,
    containsOffset n position = true ->
    Forall (passedOver position) (children n) ->
    descent position n [n] n
| descent_down : forall n before c after chain r,
    containsOffset n position = true ->
    children n = before ++ Some c :: after ->
    Forall (passedOver position) before ->
    descent position c chain r ->
    descent position n (n :: chain) r.

(** The locator's chain runs into a [null]: at some node of the chain a
    [null] child comes before any child that contains the offset. *)
Inductive descentMeetsNull (position : Z) : YAMLNode -> Prop :=
| meetsNull_here : forall n before after,
    containsOffset n position = true ->
    children n = before ++ None :: after ->
    Forall (passedOver position) before ->
    descentMeetsNull position n
| meetsNull_down : forall n before c after,
    containsOffset n position = true ->
    children n = before ++ Some c :: after ->
    Forall (passedOver position) before ->
    descentMeetsNull position c ->
    descentMeetsNull position n.



(** ** Regular expressions

    The two patterns of the source are sequences of line assertions and of
    greedy repetitions of one character class: a group of [\s*], a group
    of [.+], a lone [.], [a?] and literal characters. A repetition first
    takes as many code units as it can and gives them back one at a time
    while the rest of the pattern fails, which is the order in which a
    backtracking matcher tries them. *)

Inductive RegexItem : Type :=
| LineStart
| LineEnd
| Repeat (capture : bool) (cls : N -> bool) (min : nat) (max : option nat).

Definition isLineTerminator (c : N) : bool :=
  (N.eqb c 10 || N.eqb c 13 || N.eqb c 8232 || N.eqb c 8233)%N.

(** [\s]: white space and line terminators. *)
Definition isWhiteSpace (c : N) : bool :=
  ((N.leb 9 c && N.leb c 13) || N.eqb c 32 || N.eqb c 160 || N.eqb c 5760
   || (N.leb 8192 c && N.leb c 8202) || N.eqb c 8232 || N.eqb c 8233
   || N.eqb c 8239 || N.eqb c 8287 || N.eqb c 12288 || N.eqb c 65279)%N.

(** [.] without the [s] flag. *)
Definition dot (c : N) : bool := negb (isLineTerminator c).

Definition literal (c : N) : RegexItem := Repeat false (N.eqb c) 1 (Some 1%nat).

(** [^] with the [m] flag: at the start of the input or after a line
    terminator; [prev] is the code unit before the current position. *)
Definition atLineStart (prev : option N) : bool :=
  match prev with None => true | Some c => isLineTerminator c end.

(** [$] with the [m] flag. *)
Definition atLineEnd (rest : jsstring) : bool :=
  match rest with [] => true | c :: _ => isLineTerminator c end.

Fixpoint runLength (cls : N -> bool) (s : jsstring) : nat :=
  match s with
  | c :: s' => if cls c then S (runLength cls s') else 0%nat
  | [] => 0%nat
  end.

Definition capRun (max : option nat) (n : nat) : nat :=
  match max with Some m => Nat.min m n | None => n end.

(** The code unit before the position reached after [k] more units. *)
Definition prevAfter (prev : option N) (rest : jsstring) (k : nat)
  : option N :=
  match k with
  | O => prev
  | S k' => nth_error rest k'
  end.

(** Try the counts [k], [k - 1], ... down to [min]. *)
Fixpoint backtrack (A : Type) (f : nat -> option A) (min k : nat)
  : option A :=
  if (k <? min)%nat then None
  else
    match f k with
    | Some r => Some r
    | None =>
      match k with
      | O => None
      | S k' => backtrack f min k'
      end
    end.

(** Match the items at the current position; the result is the number of
    code units matched and the captured groups, in order. *)
Fixpoint exec (items : list RegexItem) (prev : option N) (rest : jsstring)
  : option (nat * list jsstring) :=
  match items with
  | [] => Some (0%nat, [])
  | LineStart :: items' =>
    if atLineStart prev then exec items' prev rest else None
  | LineEnd :: items' =>
    if atLineEnd rest then exec items' prev rest else None
  | Repeat capture cls min max :: items' =>
    backtrack
      (fun k =>
         match exec items' (prevAfter prev rest k) (skipn k rest) with
         | Some (len, caps) =>
           Some ((k + len)%nat,
                 if capture then firstn k rest :: caps else caps)
         | None => None
         end)
      min (capRun max (runLength cls rest))
  end.

(** One element of [matchAll]: [match.index] and the groups [match[1]],
    [match[2]], ... *)
Record RegexMatch : Type := mkMatch {
  index : nat;
  matchLength : nat;
  groups : list jsstring
}.

Definition group (m : RegexMatch) (i : nat) : jsstring :=
  nth (i - 1) (groups m) [].

(** [matchAll] with the [g] flag: the matcher is tried at each position
    from [lastIndex] on; after a match [lastIndex] is its end, or one more
    for an empty match. [p] is the position of [rest] in the input. *)
Fixpoint scan (items : list RegexItem) (prev : option N) (rest : jsstring)
  (p lastIndex : nat) : list RegexMatch :=
  let here := if (p <? lastIndex)%nat then None else exec items prev rest in
  let continue (lastIndex' : nat) :=
    match rest with
    | [] => []
    | c :: rest' => scan items (Some c) rest' (S p) lastIndex'
    end in
  match here with
  | Some (len, caps) =>
    mkMatch p len caps
      :: continue (if (len =? 0)%nat then S p else (p + len)%nat)
  | None => continue lastIndex
  end.

Definition matchAll (items : list RegexItem) (s : jsstring)
  : list RegexMatch :=
  scan items None s 0 0.

(** [s.match(pattern)] without the [g] flag, as a condition: is there a
    match at some position. *)
Fixpoint search (items : list RegexItem) (prev : option N) (rest : jsstring)
  : bool :=
  match exec items prev rest with
  | Some _ => true
  | None =>
    match rest with
    | [] => false
    | c :: rest' => search items (Some c) rest'
    end
  end.

Definition matches (s : jsstring) (items : list RegexItem) : bool :=
  search items None s.

(** The line pattern, with the flags [g] and [m]: [^], a group of [\s*],
    a group of [.+], then [$]. *)
Definition linePattern : list RegexItem :=
  [LineStart; Repeat true isWhiteSpace 0 None; Repeat true dot 1 None;
   LineEnd].

(** The file-name pattern: an optional group of [.*], then
    [.github/workflows/] (its first dot any character), a group of [.*],
    then [.ya?ml] (its dot any character). The optional group reaches the
    same positions as the group alone: an empty iteration is refused and
    replaced by no iteration, at the same position. *)
Definition workflowFilePattern : list RegexItem :=
  [Repeat true dot 0 None; Repeat false dot 1 (Some 1%nat)]
  ++ map literal (js "github/workflows/")
  ++ [Repeat true dot 0 None; Repeat false dot 1 (Some 1%nat);
      literal 121; Repeat false (N.eqb 97) 0 (Some 1%nat);
      literal 109; literal 108].

(** [rawText.startsWith('|')] *)
Definition startsWithBar (s : jsstring) : bool :=
  match s with c :: _ => N.eqb c 124 | [] => false end.

(** ** The editor's positions, ranges and documents *)

Record Position : Type := mkPosition {
  line : Z;
  character : Z
}.

Definition isBefore (a b : Position) : bool :=
  (line a <? line b) || ((line a =? line b) && (character a <? character b)).

Record Range : Type := mkRange {
  rangeStart : Position;
  rangeEnd : Position
}.

(** [new vscode.Range(start, end)]: the two ends are put in order. *)
Definition newRange (a b : Position) : Range :=
  if isBefore a b then mkRange a b else mkRange b a.

(** [range.contains(position)], both ends included. *)
Definition rangeContains (r : Range) (p : Position) : bool :=
  negb (isBefore p (rangeStart r)) && negb (isBefore (rangeEnd r) p).

Record TextDocument : Type := mkDocument {
  fileName : jsstring;
  getText : jsstring;
  positionAt : Z -> Position;
  offsetAt : Position -> Z
}.

(** ** The decomposer: [getNodeCommandRanges] *)

(** [startOffset] and [endOffset] of one line match. *)
Definition lineOffsets (value : YAMLNode) (m : RegexMatch) : Z * Z :=
  let startOffset :=
    startPosition value + Z.of_nat (index m)
    + Z.of_nat (length (group m 1)) in
  let endOffset := startOffset + Z.of_nat (length (group m 2)) in
  (startOffset, endOffset).

(** [[...rawText.matchAll(linePattern)].slice(1)] *)
Definition lineMatches (rawText : jsstring) : list RegexMatch :=
  tl (matchAll linePattern rawText).

Definition offsetsRange (document : TextDocument) (o : Z * Z) : Range :=
  newRange (positionAt document (fst o)) (positionAt document (snd o)).

(** A value without [rawValue] makes [rawText.startsWith] raise. *)
Definition getNodeCommandRanges (document : TextDocument) (value : YAMLNode)
  : Completion (list Range) :=
  let valStartOffset := positionAt document (startPosition value) in
  let valEndOffset := positionAt document (endPosition value) in
  match rawValue value with
  | None => Throw TypeError
  | Some rawText =>
    if startsWithBar rawText then
      Return (map (fun m => offsetsRange document (lineOffsets value m))
                  (lineMatches rawText))
    else Return [newRange valStartOffset valEndOffset]
  end.

(** ** The queries given to the command-runner extension *)

Definition enablePath : list jsstring :=
  [js "jobs"; js "*"; js "steps"; js "run"].

(** [path.every((val, i) => ...)] against [enablePath], from index [i]. *)
Fixpoint everyExpected (expected : list jsstring) (path : list jsstring)
  : bool :=
  match path with
  | [] => true
  | val :: path' =>
    let expectedVal := hd_error expected in
    (negb (strictNe expectedVal star) || negb (strictNe expectedVal val))
    && everyExpected (tl expected) path'
  end.

Definition isInRun (path : list jsstring) : bool :=
  (length enablePath =? length path)%nat && everyExpected enablePath path.

Section Bridge.
(** [safeLoad] of the YAML parser: an AST, nothing ([undefined]), or an
    exception. *)
Variable safeLoad : jsstring -> Completion (option YAMLNode).

Definition simpleYamlParse (document : TextDocument)
  : Completion (option YAMLNode) :=
  safeLoad (getText document).

Definition getSupportedDocumentAst (document : TextDocument)
  : Completion (option YAMLNode) :=
  if negb (matches (fileName document) workflowFilePattern) then Return None
  else simpleYamlParse document.

Definition provideSingleLineRangeFromPosition (document : TextDocument)
  (position : Position) : Completion (option Range) :=
  ast <- getSupportedDocumentAst document ;;
  match ast with
  | None => Return None
  | Some ast =>
    let offset := offsetAt document position in
    found <- findNode ast offset ;;
    let (node, path) := found in
    match node with
    | None => Return None
    | Some node =>
      match value node with
      | None => Return None
      | Some value =>
        if (startPosition value <=? offset) && (offset <=? endPosition value)
        then
          if isInRun path then
            ranges <- getNodeCommandRanges document value ;;
            Return (List.find (fun range => rangeContains range position)
                              ranges)
          else Return None
        else Return None
      end
    end
  end.

Definition getAllSingleLineCommandLocations (document : TextDocument)
  : Completion (option (list Range)) :=
  ast <- getSupportedDocumentAst document ;;
  match ast with
  | None => Return None
  | Some ast =>
    allMatchingNodes <- getAllMatchingNodes ast enablePath ;;
    ranges <- flatMapM (getNodeCommandRanges document) allMatchingNodes ;;
    Return (Some ranges)
  end.
End Bridge.

(** ** The one-shot registration: [registerFigSupport]

    [figSupportRegistered] is the module-level flag. The function runs up
    to its [await] within one event; what follows the [await] runs in a
    later event, when the activation settles. The two counters record the
    calls of [figExtension.activate] and of [api.registerLanguageSupport]. *)

Record BridgeState : Type := mkBridgeState {
  figSupportRegistered : bool;
  awaitingActivation : bool;
  activateCalls : nat;
  registerCalls : nat
}.

Definition initialBridge : BridgeState := mkBridgeState false false 0 0.

Inductive BridgeEvent : Type :=
| Invoke (editorMatchesSelector figInstalled : bool)
| ActivationResolved
| ActivationRejected.

Definition registerFigSupport (st : BridgeState)
  (editorMatchesSelector figInstalled : bool) : BridgeState :=
  if negb editorMatchesSelector then st
  else if negb figInstalled then st
  else if figSupportRegistered st then st
  else mkBridgeState true true (S (activateCalls st)) (registerCalls st).

Definition bridgeStep (st : BridgeState) (e : BridgeEvent) : BridgeState :=
  match e with
  | Invoke editorMatches installed =>
    registerFigSupport st editorMatches installed
  | ActivationResolved =>
    if awaitingActivation st then
      mkBridgeState (figSupportRegistered st) false (activateCalls st)
                    (S (registerCalls st))
    else st
  | ActivationRejected =>
    if awaitingActivation st then
      mkBridgeState (figSupportRegistered st) false (activateCalls st)
                    (registerCalls st)
    else st
  end.

Definition runBridge (st : BridgeState) (events : list BridgeEvent)
  : BridgeState :=
  fold_left bridgeStep events st.

(** The states passed through, the starting one first. *)
Fixpoint bridgeTrace (st : BridgeState) (events : list BridgeEvent)
  : list BridgeState :=
  match events with
  | [] => [st]
  | e :: events' => st :: bridgeTrace (bridgeStep st e) events'
  end.

(** The number of steps of a trace that set the flag. *)
Fixpoint registrations (trace : list BridgeState) : nat :=
  match trace with
  | a :: ((b :: _) as rest) =>
    ((if negb (figSupportRegistered a) && figSupportRegistered b
      then 1 else 0) + registrations rest)%nat
  | _ => 0%nat
  end.

(** ** The file selector *)

Definition slash : N := 47.

Definition backslash : N := 92.

Definition isSeparator (c : N) : bool := N.eqb c slash || N.eqb c backslash.

(** The segments of a path, between its separators. *)
Fixpoint splitPath (s : jsstring) : list jsstring :=
  match s with
  | [] => [[]]
  | c :: r =>
    if isSeparator c then [] :: splitPath r
    else
      match splitPath r with
      | seg :: segs => (c :: seg) :: segs
      | [] => [[c]]
      end
  end.

(** Somewhere among the segments [.github] is followed by [workflows] and
    by one segment more at least. *)
Fixpoint underWorkflows (segs : list jsstring) : bool :=
  match segs with
  | github :: ((workflows :: _ :: _) as rest) =>
    (jsstring_eqb github (js ".github")
     && jsstring_eqb workflows (js "workflows"))
    || underWorkflows rest
  | _ => false
  end.

Fixpoint isPrefix (a s : jsstring) : bool :=
  match a, s with
  | [], _ => true
  | x :: a', y :: s' => N.eqb x y && isPrefix a' s'
  | _ :: _, [] => false
  end.

Definition endsWith (s suffix : jsstring) : bool :=
  isPrefix (rev suffix) (rev s).

(** Modelled from the spec: the glob-equivalent rule of the file selector,
    "any file under a [.github/workflows/] directory with extension
    [.yaml] or [.yml]", the rule of the glob of [WorkflowSelector]; the
    editor's glob matcher is not part of the repository. The path is split
    at its separators, [/] and the backslash of a Windows path: the file is
    below a directory [workflows] of a directory [.github], and its name,
    the last segment, ends in one of the two extensions. *)
Definition matchesWorkflowSelector (path : jsstring) : bool :=
  let segs := splitPath path in
  underWorkflows segs
  && (endsWith (last segs []) (js ".yaml")
      || endsWith (last segs []) (js ".yml")).

(** What a pattern accepts at a position, whatever the order in which a
    matcher tries the repetition counts. *)
Inductive Accepts : list RegexItem -> option N -> jsstring -> Prop :=
| Accepts_nil : forall prev rest, Accepts [] prev rest
| Accepts_start : forall items prev rest,
    atLineStart prev = true -> Accepts items prev rest ->
    Accepts (LineStart :: items) prev rest
| Accepts_end : forall items prev rest,
    atLineEnd rest = true -> Accepts items prev rest ->
    Accepts (LineEnd :: items) prev rest
| Accepts_repeat : forall capture cls min max items prev rest k,
    (min <= k)%nat -> (k <= capRun max (runLength cls rest))%nat ->
    Accepts items (prevAfter prev rest k) (skipn k rest) ->
    Accepts (Repeat capture cls min max :: items) prev rest.

(** ** Sizes, for induction over the tree of children *)

Definition sizeOr0 (size : YAMLNode -> nat) (o : option YAMLNode) : nat :=
  match o with Some n => size n | None => 0%nat end.

Fixpoint nodeSize (node : YAMLNode) : nat :=
  let sizes := fix sizes (l : list (option YAMLNode)) : nat :=
    match l with
    | [] => 0%nat
    | None :: l' => sizes l'
    | Some n :: l' => (nodeSize n + sizes l')%nat
    end in
  let optSizes (o : option (list (option YAMLNode))) :=
    match o with Some l => sizes l | None => 0%nat end in
  match node with
  | mkNode _ _ _ v m i _ =>
    S (match v with Some n => nodeSize n | None => 0%nat end
       + optSizes m + optSizes i)
  end.

Definition sumSizes (l : list (option YAMLNode)) : nat :=
  list_sum (map (sizeOr0 nodeSize) l).

(** ** Sample documents *)

(** The four shapes the parser builds: scalars, mapping entries, maps and
    sequences. *)
Definition scalarNode (s e : Z) (raw : jsstring) : YAMLNode :=
  mkNode s e None None None None (Some raw).

Definition entryNode (s e : Z) (k : jsstring) (v : YAMLNode) : YAMLNode :=
  mkNode s e (Some k) (Some v) None None None.

Definition mapNode (s e : Z) (ms : list YAMLNode) : YAMLNode :=
  mkNode s e None None (Some (map (@Some YAMLNode) ms)) None None.

Definition seqNode (s e : Z) (its : list YAMLNode) : YAMLNode :=
  mkNode s e None None None (Some (map (@Some YAMLNode) its)) None.

(** A sequence some of whose entries have no content. *)
Definition seqOf (s e : Z) (its : list (option YAMLNode)) : YAMLNode :=
  mkNode s e None None None (Some its) None.

(** [s.slice(a, b)] for [0 <= a <= b]. *)
Definition slice (s : jsstring) (a b : nat) : jsstring :=
  firstn (b - a) (skipn a s).

(** A document whose lines end in a line feed: positions count lines and
    columns from zero. *)
Fixpoint positionOf (text : jsstring) (offset : nat) (ln col : Z)
  : Position :=
  match offset, text with
  | S k, c :: r =>
    if N.eqb c 10 then positionOf r k (ln + 1) 0
    else positionOf r k ln (col + 1)
  | _, _ => mkPosition ln col
  end.

Fixpoint offsetOf (text : jsstring) (ln : nat) (col : Z) : Z :=
  match ln with
  | O => col
  | S l =>
    match text with
    | [] => 0
    | c :: r =>
      1 + (if N.eqb c 10 then offsetOf r l col else offsetOf r ln col)
    end
  end.

Definition plainDocument (name text : jsstring) : TextDocument :=
  mkDocument name text
    (fun offset => positionOf text (Z.to_nat offset) 0 0)
    (fun p => offsetOf text (Z.to_nat (line p)) (character p)).

Definition lf : jsstring := [10%N].

(** The document [a: bcd]. *)
Definition abcScalar : YAMLNode := scalarNode 3 6 (js "bcd").
Definition abcEntry : YAMLNode := entryNode 0 6 (js "a") abcScalar.
Definition abcAst : YAMLNode := mapNode 0 6 [abcEntry].


(** A workflow with two steps, the first a block literal of two lines. *)
Definition workflowText : jsstring :=
  js "jobs:" ++ lf
  ++ js "  build:" ++ lf
  ++ js "    steps:" ++ lf
  ++ js "      - run: |" ++ lf
  ++ js "          echo a" ++ lf
  ++ js "          echo b" ++ lf
  ++ js "      - run: ls" ++ lf.

Definition workflowRun1 : YAMLNode :=
  scalarNode 39 75 (slice workflowText 39 75).
Definition workflowRun2 : YAMLNode :=
  scalarNode 88 90 (slice workflowText 88 90).
Definition workflowStep1 : YAMLNode :=
  mapNode 34 75 [entryNode 34 75 (js "run") workflowRun1].
Definition workflowStep2 : YAMLNode :=
  mapNode 83 90 [entryNode 83 90 (js "run") workflowRun2].
Definition workflowAst : YAMLNode :=
  mapNode 0 90
    [entryNode 0 90 (js "jobs")
       (mapNode 8 90
          [entryNode 8 90 (js "build")
             (mapNode 19 90
                [entryNode 19 90 (js "steps")
                   (seqNode 32 90 [workflowStep1; workflowStep2])])])].

Definition workflowPath : jsstring := js "/r/.github/workflows/ci.yml".

Definition workflowDocument : TextDocument :=
  plainDocument workflowPath workflowText.

(** A workflow whose only step gives [run] an empty flow sequence. *)
Definition emptyRunText : jsstring :=
  js "jobs:" ++ lf
  ++ js "  b:" ++ lf
  ++ js "    steps:" ++ lf
  ++ js "      - run: []" ++ lf.

Definition emptyRunEntry : YAMLNode :=
  entryNode 30 37 (js "run") (seqNode 35 37 []).
Definition emptyRunAst : YAMLNode :=
  mapNode 0 37
    [entryNode 0 37 (js "jobs")
       (mapNode 8 37
          [entryNode 8 37 (js "b")
             (mapNode 15 37
                [entryNode 15 37 (js "steps")
                   (seqNode 28 37 [mapNode 30 37 [emptyRunEntry]])])])].

Definition emptyRunDocument : TextDocument :=
  plainDocument workflowPath emptyRunText.

(** A workflow whose first step is a [-] alone on its line, before the
    step [run: x]: the parser puts [null] in the items of [steps]. *)
Definition nullItemText : jsstring :=
  js "jobs:" ++ lf
  ++ js "  b:" ++ lf
  ++ js "    steps:" ++ lf
  ++ js "      -" ++ lf
  ++ js "      - run: x" ++ lf.

Definition nullItemRun : YAMLNode := scalarNode 43 44 (js "x").
Definition nullItemStep : YAMLNode :=
  mapNode 38 44 [entryNode 38 44 (js "run") nullItemRun].
Definition nullItemSteps : YAMLNode :=
  entryNode 15 44 (js "steps") (seqOf 28 44 [None; Some nullItemStep]).
Definition nullItemAst : YAMLNode :=
  mapNode 0 44
    [entryNode 0 44 (js "jobs")
       (mapNode 8 44 [entryNode 8 44 (js "b") (mapNode 15 44 [nullItemSteps])])].

Definition nullItemDocument : TextDocument :=
  plainDocument workflowPath nullItemText.

(** A block literal with a line of three spaces between its two commands. *)
Definition blankLineRaw : jsstring :=
  js "|" ++ lf ++ js "  echo a" ++ lf ++ js "   " ++ lf ++ js "  echo b" ++ lf.

Definition blankLineValue : YAMLNode := scalarNode 0 24 blankLineRaw.

(** The block literal of the specification's example. *)
Definition echoRaw : jsstring :=
  js "|" ++ lf ++ js "  echo a" ++ lf ++ js "  echo b" ++ lf.

(** ** The diagnostics, hover and completion providers

    The documents the providers receive also carry their URI (the key of
    the diagnostics collection), its file-system path and the text of a
    range. *)

Record EditorDocument : Type := mkEditorDocument {
  textDocument : TextDocument;
  uri : jsstring;
  fsPath : jsstring;
  getTextIn : Range -> jsstring
}.

(** One entry of [result.diagnostics]: [x.message] and [x.pos]. *)
Record ParserDiagnostic : Type := mkParserDiagnostic {
  message : jsstring;
  pos : Z * Z
}.

Inductive DiagnosticSeverity : Type :=
| SeverityError
| SeverityWarning
| SeverityInformation
| SeverityHint.

Record Diagnostic : Type := mkDiagnostic {
  severity : DiagnosticSeverity;
  diagnosticMessage : jsstring;
  diagnosticRange : Range
}.

(** The diagnostics collection: the entries by URI; [set] replaces the
    entry of its URI. *)
Definition DiagnosticCollection := list (jsstring * list Diagnostic).

Definition collectionClear : DiagnosticCollection := [].

Definition collectionDelete (u : jsstring) (c : DiagnosticCollection)
  : DiagnosticCollection :=
  filter (fun entry => negb (jsstring_eqb (fst entry) u)) c.

Definition collectionSet (u : jsstring) (ds : list Diagnostic)
  (c : DiagnosticCollection) : DiagnosticCollection :=
  (u, ds) :: collectionDelete u c.


(** [hoverResult]: its [description] may be missing. *)
Record HoverResult : Type := mkHoverResult {
  description : option jsstring
}.

Record Hover : Type := mkHover {
  contents : list jsstring
}.

(** One entry of [completionResult]: [x.value] and [x.description]. *)
Record CompletionOption : Type := mkCompletionOption {
  optionValue : jsstring;
  optionDescription : option jsstring
}.

Inductive CompletionItemKind : Type :=
| KindConstant.

Record CompletionItem : Type := mkCompletionItem {
  label : jsstring;
  kind : CompletionItemKind;
  itemRange : option Range;
  documentation : option jsstring
}.

(** [try { body } catch (e) { handler }] *)
Definition tryCatch (A : Type) (body : Completion A)
  (handler : Exception -> Completion A) : Completion A :=
  match body with
  | Return a => Return a
  | Throw e => handler e
  end.

(** [if (s)] on a string that may be [undefined]. *)
Definition truthyOpt (s : option jsstring) : option jsstring :=
  match s with
  | Some d => if truthy d then Some d else None
  | None => None
  end.

(** The [for] loop of the completion provider, from [i] down to zero: the
    first [i] for which [text.endsWith(x.value.substr(0, i))]. *)
Fixpoint replacementLoop (text value : jsstring) (i : nat) : option nat :=
  if endsWith text (firstn i value) then Some i
  else
    match i with
    | O => None
    | S j => replacementLoop text value j
    end.

(** [new vscode.Range(line, startCharacter, line, endCharacter)] *)
Definition lineRange (ln startCharacter endCharacter : Z) : Range :=
  newRange (mkPosition ln startCharacter) (mkPosition ln endCharacter).

(** The function mapped over the completion results. *)
Definition toCompletionItem (document : EditorDocument) (position : Position)
  (x : CompletionOption) : CompletionItem :=
  let valueLength := length (optionValue x) in
  let text :=
    getTextIn document
      (lineRange (line position)
         (Z.max 0 (character position - Z.of_nat valueLength))
         (character position)) in
  mkCompletionItem (optionValue x) KindConstant
    (match replacementLoop text (optionValue x) valueLength with
     | Some i =>
       Some (lineRange (line position)
               (Z.max 0 (character position - Z.of_nat i))
               (character position))
     | None => None
     end)
    (truthyOpt (optionDescription x)).

(** The function mapped over the parser's diagnostics. *)
Definition toDiagnostic (document : EditorDocument) (x : ParserDiagnostic)
  : Diagnostic :=
  mkDiagnostic SeverityError (message x)
    (newRange (positionAt (textDocument document) (fst (pos x)))
              (positionAt (textDocument document) (snd (pos x)))).

Section Providers.
(** The repository context of a URI and the three entry points of the
    workflow parser; each may raise. The parser is given the context with
    its [name] as [repository]. *)
Variable Context : Type.
Variable contextName : Context -> jsstring.
Variable getGitHubContextForDocumentUri :
  jsstring -> Completion (option Context).
Variable parse :
  Context -> jsstring -> jsstring -> jsstring
  -> Completion (list ParserDiagnostic).
Variable hover :
  Context -> jsstring -> jsstring -> jsstring -> Z
  -> Completion (option HoverResult).
Variable complete :
  Context -> jsstring -> jsstring -> jsstring -> Z
  -> Completion (list CompletionOption).

(** [updateDiagnostics] is [async] and its callers do not wait for it: a
    call runs up to its first [await] when it is made, and each later part
    runs when the awaited promise settles, after whatever other handlers,
    other calls of [updateDiagnostics] among them, have done to the same
    collection in between. A stage holds the promise the call waits for,
    as it will settle. *)
Inductive UpdateStage : Type :=
| AwaitingContext (promise : Completion (option Context))
| AwaitingParse (promise : Completion (list ParserDiagnostic))
| Finished (result : Completion unit).

(** The call, up to its first [await] or to its end. *)
Definition updateDiagnostics (document : option EditorDocument)
  (collection : DiagnosticCollection)
  : DiagnosticCollection * UpdateStage :=
  match document with
  | Some d =>
    if matches (fileName (textDocument d)) workflowFilePattern then
      (collectionClear,
       AwaitingContext (getGitHubContextForDocumentUri (uri d)))
    else (collectionClear, Finished (Return tt))
  | None => (collectionClear, Finished (Return tt))
  end.

(** The part that runs when the awaited promise settles, on the collection
    as it is by then; [document] is the document of the call, in the state
    the editor has brought it to by then. *)
Definition resumeUpdateDiagnostics (document : EditorDocument)
  (stage : UpdateStage) (collection : DiagnosticCollection)
  : DiagnosticCollection * UpdateStage :=
  match stage with
  | AwaitingContext promise =>
    match promise with
    | Throw e => (collection, Finished (Throw e))
    | Return None => (collection, Finished (Return tt))
    | Return (Some gitHubRepoContext) =>
      (collection,
       AwaitingParse
         (parse gitHubRepoContext (contextName gitHubRepoContext)
                (fsPath document) (getText (textDocument document))))
    end
  | AwaitingParse promise =>
    match promise with
    | Throw e => (collection, Finished (Throw e))
    | Return diagnostics =>
      if (0 <? length diagnostics)%nat
      then (collectionSet (uri document)
                          (map (toDiagnostic document) diagnostics)
                          collection,
            Finished (Return tt))
      else (collection, Finished (Return tt))
    end
  | Finished result => (collection, Finished result)
  end.

(** [null] is [None]; falling out of the [try] block also returns [null]. *)
Definition provideHover (document : EditorDocument) (position : Position)
  : Completion (option Hover) :=
  tryCatch
    (gitHubRepoContext <- getGitHubContextForDocumentUri (uri document) ;;
     match gitHubRepoContext with
     | None => Return None
     | Some gitHubRepoContext =>
       hoverResult <-
         hover gitHubRepoContext (contextName gitHubRepoContext)
               (fsPath document) (getText (textDocument document))
               (offsetAt (textDocument document) position) ;;
       match hoverResult with
       | Some h =>
         match truthyOpt (description h) with
         | Some d => Return (Some (mkHover [d]))
         | None => Return None
         end
       | None => Return None
       end
     end)
    (fun _ => Return None).

Definition provideCompletionItems (document : EditorDocument)
  (position : Position) : Completion (list CompletionItem) :=
  tryCatch
    (gitHubRepoContext <- getGitHubContextForDocumentUri (uri document) ;;
     match gitHubRepoContext with
     | None => Return []
     | Some gitHubRepoContext =>
       completionResult <-
         complete gitHubRepoContext (contextName gitHubRepoContext)
                  (fsPath document) (getText (textDocument document))
                  (offsetAt (textDocument document) position) ;;
       if (0 <? length completionResult)%nat
       then Return (map (toCompletionItem document position)
                        completionResult)
       else Return []
     end)
    (fun _ => Return []).
End Providers.

Arguments AwaitingContext {Context} promise.
Arguments AwaitingParse {Context} promise.
Arguments Finished {Context} result.

(** Matches in the order of the text, none starting before [lo] or before
    the end of the one before it. *)
Fixpoint orderedFrom (lo : nat) (ms : list RegexMatch) : Prop :=
  match ms with
  | [] => True
  | m :: ms' =>
    (lo <= index m)%nat /\ orderedFrom (index m + matchLength m) ms'
  end.

(** Pairs of offsets in increasing order, each pair starting at or after
    the end of the one before it. *)
Fixpoint offsetsOrdered (lo : Z) (os : list (Z * Z)) : Prop :=
  match os with
  | [] => True
  | o :: os' => lo <= fst o /\ fst o < snd o /\ offsetsOrdered (snd o) os'
  end.

(** A document of one line, for the completion provider: the text of a
    range on that line is the slice between its two columns. *)
Definition lineDocument (lineText : jsstring) : EditorDocument :=
  mkEditorDocument
    (plainDocument workflowPath lineText) workflowPath workflowPath
    (fun r => slice lineText (Z.to_nat (character (rangeStart r)))
                            (Z.to_nat (character (rangeEnd r)))).

(** What holds of the bridge after any events: the flag tells whether the
    extension was activated, and language support is registered at most
    once, after the activation has settled. *)
Definition bridgeInvariant (st : BridgeState) : Prop :=
  if figSupportRegistered st
  then activateCalls st = 1%nat
       /\ (if awaitingActivation st then registerCalls st = 0%nat
           else (registerCalls st <= 1)%nat)
  else activateCalls st = 0%nat /\ registerCalls st = 0%nat
       /\ awaitingActivation st = false.

(** ** Proof steps *)


(** One repetition of a pattern taking [n] code units of a concrete text. *)
Ltac forget_prev :=
  match goal with
  | |- Accepts _ ?p _ => let q := fresh "prev" in generalize p; intros q
  end.

Ltac accept_count n :=
  apply Accepts_repeat with (k := n);
  [ lia | cbn; lia | cbn [skipn]; forget_prev ].

(** * Properties *)

(** ** Strings *)

Lemma jsstring_eqb_eq (a b : jsstring) : jsstring_eqb a b = true <-> a = b.
Proof.
  revert b; induction a as [|x a IH]; intros [|y b]; simpl;
    try (split; [discriminate | congruence]); try tauto.
  rewrite andb_true_iff, N.eqb_eq, IH. split.
  - intros [-> ->]; reflexivity.
  - intros E; inversion E; auto.
Qed.

(** ** The tree of children *)

Lemma overChildren_eq (A : Type) (node : YAMLNode)
  (k : list (option YAMLNode) -> A) :
  overChildren node k = k (children node).
Proof.
  unfold overChildren, children.
  destruct (mappings node); auto.
  destruct (value node) as [v|]; auto.
  destruct (mappings v); auto.
  destruct (items v); auto.
Qed.

Lemma nodeSize_in_sum (c : YAMLNode) (l : list (option YAMLNode)) :
  In (Some c) l -> (nodeSize c <= sumSizes l)%nat.
Proof.
  unfold sumSizes. induction l as [|x l IH]; simpl; [tauto|].
  intros [->|H]; [simpl; lia | specialize (IH H); lia].
Qed.

Lemma nodeSize_eq (node : YAMLNode) :
  nodeSize node =
  S (match value node with Some n => nodeSize n | None => 0 end
     + match mappings node with Some l => sumSizes l | None => 0 end
     + match items node with Some l => sumSizes l | None => 0 end)%nat.
Proof.
  assert (E : forall l,
    (fix sizes (l : list (option YAMLNode)) : nat :=
       match l with
       | [] => 0%nat
       | None :: l' => sizes l'
       | Some n :: l' => (nodeSize n + sizes l')%nat
       end) l = sumSizes l).
  { unfold sumSizes. induction l as [|[x|] l IH]; simpl; [reflexivity| |];
      rewrite IH; reflexivity. }
  destruct node as [s e k v m i r]. simpl.
  destruct m as [m|], i as [i|]; rewrite ?E; reflexivity.
Qed.

Lemma children_smaller (node c : YAMLNode) :
  In (Some c) (children node) -> (nodeSize c < nodeSize node)%nat.
Proof.
  intros H. rewrite (nodeSize_eq node). unfold children in H.
  destruct (mappings node) as [m|].
  - apply nodeSize_in_sum in H. lia.
  - destruct (value node) as [v|]; [|contradiction].
    rewrite (nodeSize_eq v).
    destruct (mappings v) as [vm|].
    + apply nodeSize_in_sum in H. lia.
    + destruct (items v) as [vi|]; [|contradiction].
      apply nodeSize_in_sum in H. lia.
Qed.

(** Induction over the tree the traversals walk. *)
Lemma children_ind (P : YAMLNode -> Prop) :
  (forall node, (forall c, In (Some c) (children node) -> P c) -> P node) ->
  forall node, P node.
Proof.
  intros step.
  assert (H : forall n node, (nodeSize node < n)%nat -> P node).
  { induction n as [|n IH]; intros node Hn; [lia|].
    apply step. intros c Hc. apply IH.
    apply children_smaller in Hc. lia. }
  intros node. apply (H (S (nodeSize node))). lia.
Qed.

Lemma in_childNodes (node c : YAMLNode) :
  In c (childNodes node) <-> In (Some c) (children node).
Proof.
  unfold childNodes. rewrite in_flat_map. split.
  - intros ([x|] & Hin & Hc); simpl in Hc; [|contradiction].
    destruct Hc as [->|[]]. exact Hin.
  - intros H. exists (Some c). split; [exact H | left; reflexivity].
Qed.

Lemma noNullChild_eq (node : YAMLNode) :
  noNullChild node =
  forallb (fun child =>
             match child with
             | Some c => noNullChild c
             | None => false
             end) (children node).
Proof.
  destruct node as [s e k v m i r].
  unfold noNullChild at 1; fold noNullChild.
  rewrite overChildren_eq. reflexivity.
Qed.

Lemma noNullChild_child (node c : YAMLNode) :
  noNullChild node = true -> In (Some c) (children node) ->
  noNullChild c = true.
Proof.
  rewrite noNullChild_eq, forallb_forall. intros H Hin. exact (H _ Hin).
Qed.

Lemma noNullChild_no_null (node : YAMLNode) :
  noNullChild node = true -> ~ In None (children node).
Proof.
  rewrite noNullChild_eq, forallb_forall. intros H Hin.
  specialize (H _ Hin). discriminate.
Qed.

(** ** The locator *)

Lemma find_eq (position : Z) (node : YAMLNode) (path : list jsstring) :
  find position node path =
  if containsOffset node position
  then findLoop position node (children node)
         (path ++ optList (truthyKey node))
  else Return (None, path).
Proof.
  destruct node as [s e k v m i r].
  unfold find at 1; fold find.
  destruct (containsOffset _ position); [|reflexivity].
  rewrite overChildren_eq.
  generalize (path ++ optList (truthyKey (mkNode s e k v m i r))).
  induction (children (mkNode s e k v m i r)) as [|[c|] cs IH]; intros p;
    simpl; try reflexivity.
  destruct (find position c p) as [[[f|] p']|ex]; try reflexivity.
  apply IH.
Qed.

Lemma find_outside (position : Z) (node : YAMLNode) (path : list jsstring) :
  containsOffset node position = false ->
  find position node path = Return (None, path).
Proof. intros H. rewrite find_eq, H. reflexivity. Qed.

Lemma findLoop_skip (position : Z) (node : YAMLNode)
  (before rest : list (option YAMLNode)) (p : list jsstring) :
  Forall (passedOver position) before ->
  findLoop position node (before ++ rest) p = findLoop position node rest p.
Proof.
  induction 1 as [|[c|] before Hc _ IH]; simpl; [reflexivity| |destruct Hc].
  rewrite (find_outside _ _ _ Hc). exact IH.
Qed.

Lemma chainKeys_cons (keyOf : YAMLNode -> option jsstring) (n : YAMLNode)
  (chain : list YAMLNode) :
  chainKeys keyOf (n :: chain) = optList (keyOf n) ++ chainKeys keyOf chain.
Proof. reflexivity. Qed.

(** Along the locator's chain, [find] returns the last node and appends
    the truthy keys of the chain to the path. *)
Lemma find_descent (position : Z) (node : YAMLNode) (chain : list YAMLNode)
  (r : YAMLNode) :
  descent position node chain r ->
  forall path,
    find position node path
    = Return (Some r, path ++ chainKeys truthyKey chain).
Proof.
  induction 1 as [n Hn Hcs | n before c after chain r Hn Hch Hb Hd IH];
    intros path; rewrite find_eq, Hn.
  - rewrite <- (app_nil_r (children n)), findLoop_skip by exact Hcs.
    simpl. rewrite app_nil_r. reflexivity.
  - rewrite Hch, findLoop_skip by exact Hb. cbn [findLoop].
    rewrite IH, chainKeys_cons, app_assoc. reflexivity.
Qed.

(** When the chain runs into a [null], [find] raises. *)
Lemma find_meetsNull (position : Z) (node : YAMLNode) :
  descentMeetsNull position node ->
  forall path, find position node path = Throw TypeError.
Proof.
  induction 1 as [n before after Hn Hch Hb | n before c after Hn Hch Hb Hd IH];
    intros path; rewrite find_eq, Hn, Hch, findLoop_skip by exact Hb;
    cbn [findLoop]; [reflexivity | rewrite IH; reflexivity].
Qed.

Lemma first_child (position : Z) (cs : list (option YAMLNode)) :
  Forall (passedOver position) cs
  \/ (exists before after,
         cs = before ++ None :: after
         /\ Forall (passedOver position) before)
  \/ (exists before c after,
         cs = before ++ Some c :: after
         /\ Forall (passedOver position) before
         /\ containsOffset c position = true).
Proof.
  induction cs as [|[x|] cs IH].
  - left. constructor.
  - destruct (containsOffset x position) eqn:Hx.
    + right. right. exists [], x, cs. repeat split; auto.
    + destruct IH as [IH | [(before & after & -> & Hb)
                           | (before & c & after & -> & Hb & Hc)]].
      * left. constructor; assumption.
      * right. left. exists (Some x :: before), after.
        split; [reflexivity | constructor; assumption].
      * right. right. exists (Some x :: before), c, after.
        repeat split; auto.
  - right. left. exists [], cs. split; [reflexivity | constructor].
Qed.

(** From a node whose span contains the offset the locator's chain either
    ends at a node or runs into a [null]. *)
Lemma descent_or_null (position : Z) (node : YAMLNode) :
  containsOffset node position = true ->
  (exists chain r, descent position node chain r)
  \/ descentMeetsNull position node.
Proof.
  induction node as [node IH] using children_ind. intros Hn.
  destruct (first_child position (children node))
    as [Hall | [(before & after & Hch & Hb)
               | (before & c & after & Hch & Hb & Hc)]].
  - left. exists [node], node. constructor; assumption.
  - right. eapply meetsNull_here; eassumption.
  - destruct (IH c) as [(chain & r & Hd) | Hnull];
      [rewrite Hch; apply in_elt | exact Hc | |].
    + left. exists (node :: chain), r. econstructor; eassumption.
    + right. eapply meetsNull_down; eassumption.
Qed.

Lemma meetsNull_has_null (position : Z) (node : YAMLNode) :
  descentMeetsNull position node -> noNullChild node = false.
Proof.
  induction 1 as [n before after Hn Hch Hb | n before c after Hn Hch Hb Hd IH];
    rewrite noNullChild_eq, Hch, forallb_app; cbn [forallb].
  - apply andb_false_r.
  - rewrite IH. apply andb_false_r.
Qed.

(** In a tree without [null] children a node whose span contains the
    offset always heads a chain. *)
Lemma descent_exists (position : Z) (node : YAMLNode) :
  noNullChild node = true ->
  containsOffset node position = true ->
  exists chain r, descent position node chain r.
Proof.
  intros Hfree Hn.
  destruct (descent_or_null position node Hn) as [H | Hnull]; [exact H|].
  apply meetsNull_has_null in Hnull. congruence.
Qed.

(** What [find] returned, it returned along the chain. *)
Lemma find_returns (position : Z) (node : YAMLNode) (path : list jsstring)
  (r : YAMLNode) (p : list jsstring) :
  find position node path = Return (Some r, p) ->
  exists chain,
    descent position node chain r /\ p = path ++ chainKeys truthyKey chain.
Proof.
  intros H. destruct (containsOffset node position) eqn:Hn.
  - destruct (descent_or_null position node Hn)
      as [(chain & r' & Hd) | Hnull].
    + rewrite (find_descent Hd) in H. inversion H; subst.
      exists chain. auto.
    + rewrite (find_meetsNull Hnull) in H. discriminate.
  - rewrite find_outside in H by exact Hn. discriminate.
Qed.

Lemma find_throws (position : Z) (node : YAMLNode) (path : list jsstring)
  (e : Exception) :
  find position node path = Throw e ->
  e = TypeError /\ descentMeetsNull position node.
Proof.
  intros H. destruct (containsOffset node position) eqn:Hn.
  - destruct (descent_or_null position node Hn)
      as [(chain & r' & Hd) | Hnull].
    + rewrite (find_descent Hd) in H. discriminate.
    + rewrite (find_meetsNull Hnull) in H. inversion H. auto.
  - rewrite find_outside in H by exact Hn. discriminate.
Qed.

Lemma descent_contains (position : Z) (node : YAMLNode)
  (chain : list YAMLNode) (r : YAMLNode) :
  descent position node chain r ->
  Forall (fun n => containsOffset n position = true) chain.
Proof. induction 1; constructor; auto. Qed.

Lemma descent_treePath (position : Z) (node : YAMLNode)
  (chain : list YAMLNode) (r : YAMLNode) :
  descent position node chain r -> treePath node chain r.
Proof.
  induction 1 as [|n before c after chain r Hn Hch Hb Hd IH];
    [constructor | apply treePath_down with (c := c)].
  - rewrite Hch. apply in_elt.
  - exact IH.
Qed.

Lemma descent_end_passes (position : Z) (node : YAMLNode)
  (chain : list YAMLNode) (r : YAMLNode) :
  descent position node chain r ->
  Forall (fun c => containsOffset c position = false) (childNodes r).
Proof.
  induction 1 as [n Hn Hcs|]; [|assumption].
  apply Forall_forall. intros c Hc. apply in_childNodes in Hc.
  rewrite Forall_forall in Hcs. exact (Hcs _ Hc).
Qed.






(** C2, as amended: [findNode] returns the last node of the chain that goes
    from the root to the first child whose span contains the offset, again
    and again, down to a node none of whose enumerated children contains
    it. The value of a mapping entry is not enumerated, so for an offset
    inside a scalar mapping value the chain ends at the entry. The path is
    the non-empty keys of the chain's nodes, the returned node's own key
    included, root first. In a tree without [null] children the chain
    exists whenever the span of the root contains the offset; when it does
    not, no node and the empty path are returned. *)
Theorem findNode_returns_chain_end (root : YAMLNode) (position : Z) :
  (forall chain node,
      descent position root chain node ->
      findNode root position = Return (Some node, chainKeys truthyKey chain)
      /\ treePath root chain node
      /\ Forall (fun n => containsOffset n position = true) chain
      /\ Forall (fun c => containsOffset c position = false)
                (childNodes node))
  /\ (noNullChild root = true ->
      containsOffset root position = true ->
      exists chain node, descent position root chain node)
  /\ (containsOffset root position = false ->
      findNode root position = Return (None, [])).
Proof.
  split; [|split].
  - intros chain node Hd. repeat split.
    + unfold findNode. rewrite (find_descent Hd). reflexivity.
    + exact (descent_treePath Hd).
    + exact (descent_contains Hd).
    + exact (descent_end_passes Hd).
  - apply descent_exists.
  - intros H. unfold findNode. apply find_outside, H.
Qed.

Lemma findNode_returns_chain_end_witness :
  descent 4 abcAst [abcAst; abcEntry] abcEntry
  /\ noNullChild abcAst = true
  /\ findNode abcAst 4
     = Return (Some abcEntry, chainKeys truthyKey [abcAst; abcEntry])
  /\ treePath abcAst [abcAst; abcEntry] abcEntry
  /\ Forall (fun n => containsOffset n 4 = true) [abcAst; abcEntry]
  /\ Forall (fun c => containsOffset c 4 = false) (childNodes abcEntry).
Proof.
  assert (H : descent 4 abcAst [abcAst; abcEntry] abcEntry).
  { apply descent_down with (before := []) (c := abcEntry) (after := []);
      [reflexivity | reflexivity | constructor |].
    apply descent_here; [reflexivity | constructor]. }
  split; [exact H | split; [reflexivity|]].
  exact (proj1 (findNode_returns_chain_end abcAst 4) _ _ H).
Defined.

(** C2 as stated fails: for the document [a: bcd] and the offset 4, strictly
    inside the scalar [bcd], a leaf, the locator returns the mapping entry
    [a], whose value the scalar is, and not the scalar. *)
Lemma findNode_scalar_value_counterexample :
  startPosition abcScalar < 4 /\ 4 < endPosition abcScalar
  /\ children abcScalar = []
  /\ findNode abcAst 4 = Return (Some abcEntry, [js "a"])
  /\ value abcEntry = Some abcScalar
  /\ key abcEntry = Some (js "a") /\ key abcScalar = None.
Proof. repeat split; reflexivity. Qed.




(** ** The collector *)

Lemma collect_eq (path : list jsstring) (node : YAMLNode) (depth : nat)
  (nodes : list YAMLNode) :
  collect path node depth nodes =
  match truthyKey node with
  | Some k =>
    if strictNe (nth_error path depth) star
       && strictNe (nth_error path depth) k
    then Return nodes
    else if isLastDepth path depth
         then Return (nodes ++ optList (value node))
         else collectLoop path (children node) (S depth) nodes
  | None => collectLoop path (children node) depth nodes
  end.
Proof.
  assert (L : forall d cs acc,
    (fix loop (cs : list (option YAMLNode)) (acc : list YAMLNode)
       : Completion (list YAMLNode) :=
       match cs with
       | [] => Return acc
       | None :: _ => Throw TypeError
       | Some child :: rest =>
         match collect path child d acc with
         | Return acc' => loop rest acc'
         | Throw e => Throw e
         end
       end) cs acc = collectLoop path cs d acc).
  { intros d cs. induction cs as [|[c|] cs IH]; intros acc; simpl;
      try reflexivity.
    destruct (collect path c d acc); [apply IH | reflexivity]. }
  destruct node as [s e k v m i r].
  unfold collect at 1; fold collect.
  rewrite !overChildren_eq, !L. reflexivity.
Qed.

Section WalkFacts.
Variable keyOf : YAMLNode -> option jsstring.

Lemma walk_eq (prefix : list jsstring) (node : YAMLNode) :
  walk keyOf prefix node =
  (prefix ++ optList (keyOf node), node)
    :: flat_map (onSome (walk keyOf (prefix ++ optList (keyOf node))))
                (children node).
Proof.
  destruct node as [s e k v m i r].
  unfold walk at 1; fold (walk keyOf).
  rewrite overChildren_eq. reflexivity.
Qed.

Lemma flat_map_flat_map (A B C : Type) (f : B -> list C) (g : A -> list B)
  (l : list A) :
  flat_map f (flat_map g l) = flat_map (fun x => flat_map f (g x)) l.
Proof.
  induction l as [|x l IH]; simpl; [reflexivity|].
  rewrite flat_map_app, IH. reflexivity.
Qed.

Lemma flat_map_nil (A B : Type) (f : A -> list B) (l : list A) :
  (forall x, In x l -> f x = []) -> flat_map f l = [].
Proof.
  induction l as [|x l IH]; simpl; intros H; [reflexivity|].
  rewrite (H x), IH by auto. reflexivity.
Qed.

(** Every key-path of the walk is the prefix followed by the path relative
    to the node where the walk starts. *)
Lemma walk_prefix (prefix : list jsstring) (node : YAMLNode) :
  walk keyOf prefix node =
  map (fun e => (prefix ++ fst e, snd e)) (walk keyOf [] node).
Proof.
  revert prefix. induction node as [node IH] using children_ind.
  intros prefix. rewrite (walk_eq prefix), (walk_eq []). simpl. f_equal.
  rewrite !flat_map_concat_map, concat_map, map_map. f_equal.
  apply map_ext_in. intros [c|] Hc; [|reflexivity]. cbn [onSome].
  rewrite (IH c Hc (prefix ++ optList (keyOf node))).
  rewrite (IH c Hc (optList (keyOf node))).
  rewrite map_map. apply map_ext. intros [q m]. simpl.
  rewrite app_assoc. reflexivity.
Qed.

(** A keyed node of the walk has its own key last in its key-path. *)
Lemma walk_keyed_nonempty (prefix : list jsstring) (node : YAMLNode)
  (q : list jsstring) (m : YAMLNode) (km : jsstring) :
  In (q, m) (walk keyOf prefix node) -> keyOf m = Some km ->
  exists q', q = q' ++ [km].
Proof.
  revert prefix. induction node as [node IH] using children_ind.
  intros prefix Hin Hk. rewrite walk_eq in Hin. destruct Hin as [E|Hin].
  - inversion E; subst. rewrite Hk. exists prefix. reflexivity.
  - apply in_flat_map in Hin. destruct Hin as ([c|] & Hc & Hin);
      [|contradiction]. eauto.
Qed.

Lemma walk_chain (node : YAMLNode) :
  forall prefix q m,
    In (q, m) (walk keyOf prefix node) ->
    exists chain,
      treePath node chain m /\ q = prefix ++ chainKeys keyOf chain.
Proof.
  induction node as [node IH] using children_ind. intros prefix q m Hin.
  rewrite walk_eq in Hin. destruct Hin as [E|Hin].
  - inversion E; subst. exists [m]. split; [constructor|].
    simpl. rewrite app_nil_r. reflexivity.
  - apply in_flat_map in Hin. destruct Hin as ([c|] & Hc & Hin);
      [|contradiction].
    destruct (IH c Hc _ _ _ Hin) as (chain & Htp & ->).
    exists (node :: chain). split; [econstructor; eassumption|].
    rewrite chainKeys_cons, app_assoc. reflexivity.
Qed.

(** The walk lists each node at the end of a chain from its start, with
    the keys of that chain as key-path. *)
Lemma walk_paths (node : YAMLNode) (q : list jsstring) (m : YAMLNode) :
  In (q, m) (walk keyOf [] node) <->
  exists chain, treePath node chain m /\ q = chainKeys keyOf chain.
Proof.
  split.
  - intros Hin. exact (walk_chain _ _ _ _ Hin).
  - intros (chain & Htp & ->).
    assert (H : forall prefix,
               In (prefix ++ chainKeys keyOf chain, m)
                  (walk keyOf prefix node)).
    { induction Htp as [n | n c chain r Hc Htp IH]; intros prefix;
        rewrite walk_eq.
      - left. simpl. rewrite app_nil_r. reflexivity.
      - right. apply in_flat_map. exists (Some c). split; [exact Hc|].
        cbn [onSome]. rewrite chainKeys_cons, app_assoc. apply IH. }
    exact (H []).
Qed.

Lemma pathMatches_nil_r (pattern : list jsstring) :
  pathMatches pattern [] = match pattern with [] => true | _ => false end.
Proof. destruct pattern; reflexivity. Qed.

(** Nothing matches the empty pattern below a node: keyed nodes have a
    key-path of one segment at least. *)
Lemma nothing_matches_nil (node : YAMLNode) :
  flat_map (matchedValue keyOf []) (walk keyOf [] node) = [].
Proof.
  apply flat_map_nil. intros [q m] Hin. unfold matchedValue. simpl.
  destruct (keyOf m) as [km|] eqn:Hk; [|reflexivity].
  destruct (walk_keyed_nonempty _ _ _ Hin Hk) as [q' ->].
  destruct q'; reflexivity.
Qed.

(** Below a keyed node the first pattern segment is spent on its key. *)
Lemma matches_below_key (e k : jsstring) (pattern : list jsstring)
  (c : YAMLNode) :
  flat_map (matchedValue keyOf (e :: pattern)) (walk keyOf [k] c) =
  if segmentMatches e k
  then flat_map (matchedValue keyOf pattern) (walk keyOf [] c)
  else [].
Proof.
  rewrite walk_prefix, flat_map_concat_map, map_map.
  destruct (segmentMatches e k) eqn:Hs.
  - rewrite flat_map_concat_map. f_equal. apply map_ext. intros [q m].
    unfold matchedValue. simpl. rewrite Hs. reflexivity.
  - rewrite <- flat_map_concat_map. apply flat_map_nil. intros [q m] _.
    unfold matchedValue. simpl. rewrite Hs.
    destruct (keyOf m); reflexivity.
Qed.

Lemma matches_below_key_nil (k : jsstring) (c : YAMLNode) :
  flat_map (matchedValue keyOf []) (walk keyOf [k] c) = [].
Proof.
  rewrite walk_prefix, flat_map_concat_map, map_map,
    <- flat_map_concat_map.
  apply flat_map_nil. intros [q m] _. unfold matchedValue. simpl.
  destruct (keyOf m); reflexivity.
Qed.
End WalkFacts.

Lemma nth_error_skipn_hd (A : Type) (l : list A) (n : nat) :
  nth_error l n = hd_error (skipn n l).
Proof.
  revert l. induction n as [|n IH]; intros [|x l]; simpl; auto.
Qed.

Lemma skipn_S_tl (A : Type) (l : list A) (n : nat) :
  skipn (S n) l = tl (skipn n l).
Proof.
  revert l. induction n as [|n IH]; intros [|x l]; auto.
  change (skipn (S (S n)) (x :: l)) with (skipn (S n) l).
  rewrite IH. reflexivity.
Qed.

Lemma isLastDepth_skipn (path : list jsstring) (depth : nat) (e : jsstring)
  (rest : list jsstring) :
  skipn depth path = e :: rest ->
  isLastDepth path depth = match rest with [] => true | _ => false end.
Proof.
  intros H. unfold isLastDepth.
  assert (L : length path = (depth + S (length rest))%nat).
  { pose proof (length_skipn depth path) as E. rewrite H in E. simpl in E.
    assert (depth < length path)%nat.
    { destruct (Nat.lt_ge_cases depth (length path)) as [|G]; [assumption|].
      rewrite skipn_all2 in H by exact G. discriminate. }
    lia. }
  destruct rest; simpl in L.
  - apply Z.eqb_eq. lia.
  - apply Z.eqb_neq. lia.
Qed.

(** What one step of the collector does at a node, in terms of the pattern
    left from [depth] on: nothing at a keyed node whose key does not match
    the first segment left (or when no segment is left), the node's value
    at a match of the last segment, and otherwise a descent into the
    children with the pattern left after the key. *)
Lemma collect_step (path : list jsstring) (node : YAMLNode) (depth : nat)
  (nodes : list YAMLNode) :
  collect path node depth nodes =
  match truthyKey node, skipn depth path with
  | Some k, [] => Return nodes
  | Some k, [e] =>
    if segmentMatches e k then Return (nodes ++ optList (value node))
    else Return nodes
  | Some k, e :: _ :: _ =>
    if segmentMatches e k
    then collectLoop path (children node) (S depth) nodes
    else Return nodes
  | None, _ => collectLoop path (children node) depth nodes
  end.
Proof.
  rewrite collect_eq. destruct (truthyKey node) as [k|]; [|reflexivity].
  rewrite nth_error_skipn_hd.
  destruct (skipn depth path) as [|e rest] eqn:Hsk; [reflexivity|].
  cbn [hd_error strictNe]. rewrite <- negb_orb.
  change (jsstring_eqb e star || jsstring_eqb e k)
    with (segmentMatches e k).
  rewrite (isLastDepth_skipn _ _ Hsk).
  destruct (segmentMatches e k), rest; reflexivity.
Qed.

(** The same step on the side of the key-paths. *)
Lemma valuesBelow_step (path : list jsstring) (node : YAMLNode)
  (depth : nat) :
  valuesBelow path depth node =
  match truthyKey node, skipn depth path with
  | Some k, [] => []
  | Some k, [e] => if segmentMatches e k then optList (value node) else []
  | Some k, e :: _ :: _ =>
    if segmentMatches e k
    then flat_map (onSome (valuesBelow path (S depth))) (children node)
    else []
  | None, _ => flat_map (onSome (valuesBelow path depth)) (children node)
  end.
Proof.
  unfold valuesBelow. rewrite walk_eq. cbn [flat_map].
  rewrite flat_map_flat_map.
  destruct (truthyKey node) as [k|] eqn:Hk; cbn [optList app].
  - unfold matchedValue at 1. cbn [fst snd]. rewrite Hk.
    rewrite skipn_S_tl.
    destruct (skipn depth path) as [|e rest] eqn:Hsk; cbn [pathMatches tl].
    + apply flat_map_nil. intros [c|] _; [|reflexivity].
      apply matches_below_key_nil.
    + rewrite pathMatches_nil_r.
      assert (E : forall x,
        flat_map (matchedValue truthyKey (e :: rest))
                 (onSome (walk truthyKey [k]) x)
        = if segmentMatches e k
          then onSome (fun c => flat_map (matchedValue truthyKey rest)
                                         (walk truthyKey [] c)) x
          else []).
      { intros [c|]; [apply matches_below_key|].
        destruct (segmentMatches e k); reflexivity. }
      rewrite (flat_map_ext _ _ E).
      destruct (segmentMatches e k) eqn:Hs; cbn [andb].
      * destruct rest as [|e' rest'].
        -- rewrite flat_map_nil; [apply app_nil_r|].
           intros [c|] _; [apply nothing_matches_nil | reflexivity].
        -- reflexivity.
      * cbn [app]. rewrite flat_map_nil by (intros; reflexivity).
        destruct rest as [|e' rest']; reflexivity.
  - unfold matchedValue at 1. cbn [fst snd]. rewrite Hk. cbn [app].
    apply flat_map_ext. intros [c|]; reflexivity.
Qed.

(** The collector raises nothing but a TypeError; when it returns, it has
    added, after what was collected, the matching values below the node. *)
Lemma collect_result (path : list jsstring) (node : YAMLNode) :
  forall depth nodes,
    collect path node depth nodes
    = Return (nodes ++ valuesBelow path depth node)
    \/ collect path node depth nodes = Throw TypeError.
Proof.
  induction node as [node IH] using children_ind.
  assert (Loop : forall d acc,
    collectLoop path (children node) d acc
    = Return (acc ++ flat_map (onSome (valuesBelow path d)) (children node))
    \/ collectLoop path (children node) d acc = Throw TypeError).
  { intros d. induction (children node) as [|[c|] cs IHcs]; intros acc;
      cbn [collectLoop flat_map onSome].
    - left. rewrite app_nil_r. reflexivity.
    - destruct (IH c (or_introl eq_refl) d acc) as [-> | ->];
        [|right; reflexivity].
      destruct (IHcs (fun c' H => IH c' (or_intror H))
                     (acc ++ valuesBelow path d c)) as [-> | ->];
        [left; rewrite app_assoc; reflexivity | right; reflexivity].
    - right. reflexivity. }
  intros depth nodes. rewrite collect_step, valuesBelow_step.
  destruct (truthyKey node) as [k|]; [|apply Loop].
  destruct (skipn depth path) as [|e [|e' rest]].
  - left. rewrite app_nil_r. reflexivity.
  - left. destruct (segmentMatches e k); [|rewrite app_nil_r]; reflexivity.
  - destruct (segmentMatches e k); [apply Loop|].
    left. rewrite app_nil_r. reflexivity.
Qed.

(** In a tree without [null] children the collector returns. *)
Lemma collect_noNullChild (path : list jsstring) (node : YAMLNode) :
  noNullChild node = true ->
  forall depth nodes,
    collect path node depth nodes
    = Return (nodes ++ valuesBelow path depth node).
Proof.
  induction node as [node IH] using children_ind. intros Hfree.
  assert (Hsub : forall c, In (Some c) (children node) ->
                           noNullChild c = true)
    by (intros c; apply noNullChild_child; exact Hfree).
  pose proof (noNullChild_no_null _ Hfree) as Hnone.
  assert (Loop : forall d acc,
    collectLoop path (children node) d acc
    = Return (acc ++ flat_map (onSome (valuesBelow path d))
                              (children node))).
  { intros d. induction (children node) as [|[c|] cs IHcs]; intros acc;
      cbn [collectLoop flat_map onSome].
    - rewrite app_nil_r. reflexivity.
    - rewrite (IH c (or_introl eq_refl) (Hsub c (or_introl eq_refl))).
      rewrite IHcs.
      + rewrite app_assoc. reflexivity.
      + intros c' H. apply IH. right. exact H.
      + intros c' H. apply Hsub. right. exact H.
      + intros H. apply Hnone. right. exact H.
    - exfalso. apply Hnone. left. reflexivity. }
  intros depth nodes.
  destruct (collect_result path node depth nodes) as [H | H]; [exact H|].
  exfalso. rewrite collect_step in H.
  destruct (truthyKey node) as [k|]; [|rewrite Loop in H; discriminate].
  destruct (skipn depth path) as [|e [|e' rest]]; try discriminate;
    destruct (segmentMatches e k); try discriminate.
  rewrite Loop in H. discriminate.
Qed.




(** Without a wildcard, matching is equality with the pattern. *)
Lemma pathMatches_literal (pattern path : list jsstring) :
  Forall (fun e => e <> star) pattern ->
  (pathMatches pattern path = true <-> path = pattern).
Proof.
  intros Hlit. revert path.
  induction Hlit as [|e pattern He _ IH]; intros [|k path]; simpl;
    try (split; [discriminate | congruence]); try tauto.
  rewrite andb_true_iff, IH. unfold segmentMatches.
  rewrite orb_true_iff, !jsstring_eqb_eq. split.
  - intros [[E|E] ->]; [contradiction | subst; reflexivity].
  - intros E; inversion E; subst. tauto.
Qed.

(** ** The queries *)

Lemma isInRun_pathMatches (path : list jsstring) :
  isInRun path = pathMatches enablePath path.
Proof.
  unfold isInRun. generalize enablePath as expected. intros expected.
  revert path. induction expected as [|e expected IH]; intros [|v path];
    try reflexivity.
  cbn [length Nat.eqb everyExpected hd_error tl pathMatches strictNe].
  rewrite !negb_involutive.
  fold (segmentMatches e v). rewrite <- IH.
  destruct (segmentMatches e v), (length expected =? length path)%nat;
    reflexivity.
Qed.

(** When the document is a workflow file and the loader gives an AST, the
    point query returns a range exactly when the locator returns a node
    with a value whose span contains the offset, the located path matches
    the enable-path, the value decomposes, and the range is the first of
    the decomposition that contains the position. *)
Lemma point_query_range_iff
  (safeLoad : jsstring -> Completion (option YAMLNode))
  (document : TextDocument) (position : Position) (ast : YAMLNode)
  (r : Range) :
  matches (fileName document) workflowFilePattern = true ->
  safeLoad (getText document) = Return (Some ast) ->
  (provideSingleLineRangeFromPosition safeLoad document position
   = Return (Some r)
   <-> exists node path v ranges,
         findNode ast (offsetAt document position)
         = Return (Some node, path)
         /\ value node = Some v
         /\ startPosition v <= offsetAt document position <= endPosition v
         /\ pathMatches enablePath path = true
         /\ getNodeCommandRanges document v = Return ranges
         /\ List.find (fun range => rangeContains range position) ranges
            = Some r).
Proof.
  intros Hfile Hload.
  unfold provideSingleLineRangeFromPosition, getSupportedDocumentAst,
    simpleYamlParse.
  rewrite Hfile. cbn [negb]. rewrite Hload. cbn [bind].
  destruct (findNode ast (offsetAt document position))
    as [[[node|] path]|ex]; cbn [bind].
  3:{ split; [discriminate|]. intros (? & ? & ? & ? & H & _). discriminate. }
  2:{ split; [discriminate|]. intros (? & ? & ? & ? & H & _). discriminate. }
  destruct (value node) as [v|] eqn:Hv.
  2:{ split; [discriminate|].
      intros (? & ? & ? & ? & H & H' & _). inversion H; subst. congruence. }
  rewrite isInRun_pathMatches.
  destruct ((startPosition v <=? offsetAt document position)
            && (offsetAt document position <=? endPosition v)) eqn:Hspan.
  2:{ split; [discriminate|].
      intros (? & ? & ? & ? & H & H' & Hs & _).
      inversion H; subst. rewrite Hv in H'. inversion H'; subst.
      apply andb_false_iff in Hspan. rewrite !Z.leb_nle in Hspan. lia. }
  apply andb_true_iff in Hspan. rewrite !Z.leb_le in Hspan.
  destruct (pathMatches enablePath path) eqn:Hpath.
  2:{ split; [discriminate|].
      intros (? & ? & ? & ? & H & _ & _ & Hp & _).
      inversion H; subst. congruence. }
  destruct (getNodeCommandRanges document v) as [ranges|ex] eqn:Hr;
    cbn [bind].
  - split.
    + intros E. inversion E as [E']. exists node, path, v, ranges.
      repeat split; auto; lia.
    + intros (? & ? & ? & ? & H & H' & _ & _ & Hr' & Hf).
      inversion H; subst. rewrite Hv in H'. inversion H'; subst.
      rewrite Hr in Hr'. inversion Hr'; subst. rewrite Hf. reflexivity.
  - split; [discriminate|].
    intros (? & ? & ? & ? & H & H' & _ & _ & Hr' & _).
    inversion H; subst. rewrite Hv in H'. inversion H'; subst.
    rewrite Hr in Hr'. discriminate.
Qed.

(** The decomposer raises exactly on a value without [rawValue]. *)
Lemma getNodeCommandRanges_raises (document : TextDocument)
  (v : YAMLNode) (e : Exception) :
  getNodeCommandRanges document v = Throw e
  <-> rawValue v = None /\ e = TypeError.
Proof.
  unfold getNodeCommandRanges. destruct (rawValue v) as [rawText|].
  - destruct (startsWithBar rawText); split;
      [discriminate | intros [H _]; discriminate
      | discriminate | intros [H _]; discriminate].
  - split; [intros H; inversion H; auto | intros [_ ->]; reflexivity].
Qed.

(** In the same setting the point query raises exactly when the locator
    raises, or the located value matches and has no [rawValue]; in every
    other case it returns a range or none. *)
Lemma point_query_raises_iff
  (safeLoad : jsstring -> Completion (option YAMLNode))
  (document : TextDocument) (position : Position) (ast : YAMLNode)
  (e : Exception) :
  matches (fileName document) workflowFilePattern = true ->
  safeLoad (getText document) = Return (Some ast) ->
  (provideSingleLineRangeFromPosition safeLoad document position = Throw e
   <-> e = TypeError
       /\ (findNode ast (offsetAt document position) = Throw TypeError
           \/ exists node path v,
                findNode ast (offsetAt document position)
                = Return (Some node, path)
                /\ value node = Some v
                /\ startPosition v <= offsetAt document position
                   <= endPosition v
                /\ pathMatches enablePath path = true
                /\ rawValue v = None)).
Proof.
  intros Hfile Hload.
  unfold provideSingleLineRangeFromPosition, getSupportedDocumentAst,
    simpleYamlParse.
  rewrite Hfile. cbn [negb]. rewrite Hload. cbn [bind].
  destruct (findNode ast (offsetAt document position))
    as [[[node|] path]|ex] eqn:Hfind; cbn [bind].
  3:{ unfold findNode in Hfind. apply find_throws in Hfind.
      destruct Hfind as [-> _]. split.
      - intros E. inversion E. auto.
      - intros [-> _]. reflexivity. }
  2:{ split; [discriminate|].
      intros (_ & [H | (? & ? & ? & H & _)]); discriminate. }
  destruct (value node) as [v|] eqn:Hv.
  2:{ split; [discriminate|].
      intros (_ & [H | (? & ? & ? & H & H' & _)]); [discriminate|].
      inversion H; subst. congruence. }
  rewrite isInRun_pathMatches.
  destruct ((startPosition v <=? offsetAt document position)
            && (offsetAt document position <=? endPosition v)) eqn:Hspan.
  2:{ split; [discriminate|].
      intros (_ & [H | (? & ? & ? & H & H' & Hs & _)]); [discriminate|].
      inversion H; subst. rewrite Hv in H'. inversion H'; subst.
      apply andb_false_iff in Hspan. rewrite !Z.leb_nle in Hspan. lia. }
  apply andb_true_iff in Hspan. rewrite !Z.leb_le in Hspan.
  destruct (pathMatches enablePath path) eqn:Hpath.
  2:{ split; [discriminate|].
      intros (_ & [H | (? & ? & ? & H & _ & _ & Hp & _)]); [discriminate|].
      inversion H; subst. congruence. }
  destruct (getNodeCommandRanges document v) as [ranges|ex] eqn:Hr;
    cbn [bind].
  - split; [discriminate|].
    intros (_ & [H | (n' & p' & v' & H & H' & _ & _ & Hraw)]);
      [discriminate|].
    inversion H; subst n' p'. rewrite Hv in H'. inversion H'; subst v'.
    assert (Ht : getNodeCommandRanges document v = Throw TypeError)
      by (apply getNodeCommandRanges_raises; auto).
    rewrite Hr in Ht. discriminate.
  - apply getNodeCommandRanges_raises in Hr. destruct Hr as [Hraw ->].
    split.
    + intros E. inversion E; subst. split; [reflexivity|]. right.
      exists node, path, v. repeat split; auto; lia.
    + intros [-> _]. reflexivity.
Qed.

(** C3, at the input where the code departs from it: in a workflow whose
    step gives [run] an empty flow sequence, with the position on its
    opening bracket, the located path is the enable-path and the offset is
    in the value's span; the value is no scalar and has no [rawValue], and
    the point query raises instead of returning no range. *)
Theorem point_query_raises_on_sequence_value :
  matches (fileName emptyRunDocument) workflowFilePattern = true
  /\ offsetAt emptyRunDocument (mkPosition 3 13) = 35
  /\ findNode emptyRunAst 35
     = Return (Some emptyRunEntry, [js "jobs"; js "b"; js "steps"; js "run"])
  /\ value emptyRunEntry = Some (seqNode 35 37 [])
  /\ provideSingleLineRangeFromPosition
       (fun _ => Return (Some emptyRunAst)) emptyRunDocument (mkPosition 3 13)
     = Throw TypeError.
Proof. repeat split; reflexivity. Qed.

(** C4, at an input where the code departs from it: in a workflow whose
    first step is a [-] alone on its line, followed by the step [run: x],
    the items of [steps] are [null] and the second step; the document has
    one run step, whose decomposition is one range, the range of [x]. The
    collector reads the key of the [null] item, and the enumerate-all
    query raises instead of returning that one range. *)
Theorem enumerate_raises_on_null_item :
  matches (fileName nullItemDocument) workflowFilePattern = true
  /\ children nullItemSteps = [None; Some nullItemStep]
  /\ collectAllSpec truthyKey nullItemAst enablePath = [nullItemRun]
  /\ getNodeCommandRanges nullItemDocument nullItemRun
     = Return [mkRange (mkPosition 4 13) (mkPosition 4 14)]
  /\ getAllMatchingNodes nullItemAst enablePath = Throw TypeError
  /\ getAllSingleLineCommandLocations
       (fun _ => Return (Some nullItemAst)) nullItemDocument
     = Throw TypeError.
Proof. repeat split; reflexivity. Qed.

(** C9, as amended: both queries return no result, and raise nothing, when
    the document is not recognised as a workflow file or when the loader
    returns no AST. *)
Theorem queries_absent_without_ast
  (safeLoad : jsstring -> Completion (option YAMLNode))
  (document : TextDocument) (position : Position) :
  matches (fileName document) workflowFilePattern = false
  \/ safeLoad (getText document) = Return None ->
  provideSingleLineRangeFromPosition safeLoad document position = Return None
  /\ getAllSingleLineCommandLocations safeLoad document = Return None.
Proof.
  unfold provideSingleLineRangeFromPosition, getAllSingleLineCommandLocations,
    getSupportedDocumentAst, simpleYamlParse.
  intros [H|H].
  - rewrite H. split; reflexivity.
  - destruct (matches (fileName document) workflowFilePattern);
      simpl; rewrite ?H; split; reflexivity.
Qed.

Lemma queries_absent_without_ast_witness :
  (matches (fileName (plainDocument (js "/r/notes.txt") workflowText))
           workflowFilePattern = false
   \/ (fun _ : jsstring => Return (Some workflowAst))
        (getText (plainDocument (js "/r/notes.txt") workflowText))
      = Return None)
  /\ provideSingleLineRangeFromPosition
       (fun _ => Return (Some workflowAst))
       (plainDocument (js "/r/notes.txt") workflowText) (mkPosition 4 12)
     = Return None
  /\ getAllSingleLineCommandLocations
       (fun _ => Return (Some workflowAst))
       (plainDocument (js "/r/notes.txt") workflowText)
     = Return None.
Proof.
  assert (H : matches (fileName (plainDocument (js "/r/notes.txt") workflowText))
                workflowFilePattern = false
              \/ (fun _ : jsstring => Return (Some workflowAst))
                   (getText (plainDocument (js "/r/notes.txt") workflowText))
                 = Return None) by (left; reflexivity).
  split; [exact H|].
  exact (queries_absent_without_ast
           (fun _ => Return (Some workflowAst))
           (plainDocument (js "/r/notes.txt") workflowText)
           (mkPosition 4 12) H).
Defined.

(** C9 as stated fails: an exception raised by the loader is not caught;
    both queries raise it. *)
Lemma queries_propagate_loader_exception :
  matches (fileName workflowDocument) workflowFilePattern = true
  /\ provideSingleLineRangeFromPosition
       (fun _ => Throw LoaderError) workflowDocument (mkPosition 4 12)
     = Throw LoaderError
  /\ getAllSingleLineCommandLocations
       (fun _ => Throw LoaderError) workflowDocument
     = Throw LoaderError.
Proof. repeat split; reflexivity. Qed.

(** ** The regular-expression matcher *)

Lemma backtrack_some (A : Type) (f : nat -> option A) (min k : nat) (r : A) :
  backtrack f min k = Some r ->
  exists j, (min <= j <= k)%nat /\ f j = Some r.
Proof.
  induction k as [|k IH]; simpl.
  - destruct (0 <? min)%nat eqn:Hlt; [discriminate|].
    apply Nat.ltb_ge in Hlt.
    destruct (f 0%nat) eqn:Hf; [|discriminate].
    intros E; inversion E; subst. exists 0%nat. split; [lia | exact Hf].
  - destruct (S k <? min)%nat eqn:Hlt; [discriminate|].
    apply Nat.ltb_ge in Hlt.
    destruct (f (S k)) eqn:Hf.
    + intros E; inversion E; subst. exists (S k). split; [lia | exact Hf].
    + intros E. destruct (IH E) as (j & Hj & Hfj).
      exists j. split; [lia | exact Hfj].
Qed.

Lemma backtrack_complete (A : Type) (f : nat -> option A) (min k j : nat) :
  (min <= j <= k)%nat -> f j <> None -> backtrack f min k <> None.
Proof.
  intros Hj Hf. induction k as [|k IH]; simpl.
  - assert (j = 0%nat) as -> by lia.
    destruct (0 <? min)%nat eqn:Hlt; [apply Nat.ltb_lt in Hlt; lia|].
    destruct (f 0%nat); [discriminate | contradiction].
  - destruct (S k <? min)%nat eqn:Hlt; [apply Nat.ltb_lt in Hlt; lia|].
    destruct (f (S k)) eqn:Hfk; [discriminate|].
    apply IH. destruct (Nat.eq_dec j (S k)) as [->|]; [contradiction | lia].
Qed.

Lemma runLength_le (cls : N -> bool) (s : jsstring) :
  (runLength cls s <= length s)%nat.
Proof.
  induction s as [|c s IH]; simpl; [lia|]. destruct (cls c); simpl; lia.
Qed.

Lemma runLength_firstn (cls : N -> bool) (s : jsstring) (k : nat) :
  (k <= runLength cls s)%nat -> forallb cls (firstn k s) = true.
Proof.
  revert k. induction s as [|c s IH]; intros [|k]; simpl; auto.
  destruct (cls c) eqn:Hc; [|lia]. simpl. intros H. apply IH. lia.
Qed.

(** After a maximal run of [.] the line ends. *)
Lemma atLineEnd_after_run (s : jsstring) :
  atLineEnd (skipn (runLength dot s) s) = true.
Proof.
  induction s as [|c s IH]; simpl; [reflexivity|].
  unfold dot at 1. destruct (isLineTerminator c) eqn:Hc; simpl; auto.
Qed.

(** What a match of the line pattern captures: [a] code units of white
    space, then [b >= 1] code units none of which ends a line. *)
Lemma exec_linePattern (prev : option N) (rest : jsstring) (len : nat)
  (caps : list jsstring) :
  exec linePattern prev rest = Some (len, caps) ->
  exists a b,
    caps = [firstn a rest; firstn b (skipn a rest)]
    /\ (a <= runLength isWhiteSpace rest)%nat
    /\ (1 <= b <= runLength dot (skipn a rest))%nat
    /\ len = (a + b)%nat.
Proof.
  unfold linePattern. cbn [exec].
  destruct (atLineStart prev); [|discriminate].
  intros H. apply backtrack_some in H. destruct H as (a & Ha & H).
  destruct (backtrack _ 1 _) as [[len' caps']|] eqn:Hb; [|discriminate].
  inversion H; subst. clear H.
  apply backtrack_some in Hb. destruct Hb as (b & Hb & H).
  destruct (atLineEnd _); [|discriminate].
  inversion H; subst. clear H.
  exists a, b. cbn [capRun] in *. repeat split; try lia.
Qed.

Lemma scan_in (items : list RegexItem) (rest : jsstring) :
  forall prev p lastIndex m,
    In m (scan items prev rest p lastIndex) ->
    exists prev' rest',
      exec items prev' rest' = Some (matchLength m, groups m).
Proof.
  induction rest as [|c rest IH]; intros prev p lastIndex m; cbn [scan].
  - destruct (p <? lastIndex)%nat;
      [intros [] | destruct (exec items prev []) as [[len caps]|] eqn:He].
    + intros [<-|[]]. exists prev, []. exact He.
    + intros [].
  - destruct (p <? lastIndex)%nat; [apply IH|].
    destruct (exec items prev (c :: rest)) as [[len caps]|] eqn:He.
    + intros [<-|H]; [exists prev, (c :: rest); exact He | eapply IH; exact H].
    + apply IH.
Qed.

(** The first match on a block literal is its header line, from the
    indicator to the end of the first line, with no leading white space. *)
Lemma matchAll_header (rawText : jsstring) :
  startsWithBar rawText = true ->
  exists rest,
    matchAll linePattern rawText =
    mkMatch 0 (runLength dot rawText)
            [[]; firstn (runLength dot rawText) rawText] :: rest.
Proof.
  destruct rawText as [|c r]; [discriminate|]. cbn [startsWithBar].
  intros Hc. apply N.eqb_eq in Hc. subst c.
  assert (E : exec linePattern None (124%N :: r)
              = Some (runLength dot (124%N :: r),
                      [[]; firstn (runLength dot (124%N :: r)) (124%N :: r)])).
  { unfold linePattern. cbn [exec atLineStart].
    change (capRun None (runLength isWhiteSpace (124%N :: r))) with 0%nat.
    cbn [backtrack Nat.ltb Nat.leb prevAfter skipn firstn].
    change (runLength dot (124%N :: r)) with (S (runLength dot r)).
    cbn [capRun backtrack Nat.ltb Nat.leb].
    change (skipn (S (runLength dot r)) (124%N :: r))
      with (skipn (runLength dot r) r).
    rewrite atLineEnd_after_run. cbn [Nat.add].
    rewrite Nat.add_0_r. reflexivity. }
  unfold matchAll. cbn [scan Nat.ltb Nat.leb]. rewrite E.
  eexists. reflexivity.
Qed.

(** ** The decomposer *)

(** C5: for a block literal the first match, the header line, is dropped
    and each remaining match gives the range from
    [startPosition + index + length of the leading white space] to that
    offset plus the length of the content; the example of two commands
    gives the two ranges of [echo a] and [echo b]; a raw value that does
    not start with the indicator gives the one range of the whole value. *)
Theorem getNodeCommandRanges_spec (document : TextDocument)
  (value : YAMLNode) (rawText : jsstring) :
  rawValue value = Some rawText ->
  (startsWithBar rawText = true ->
   exists header rest,
     matchAll linePattern rawText = header :: rest
     /\ index header = 0%nat
     /\ group header 1 = []
     /\ group header 2 = firstn (runLength dot rawText) rawText
     /\ getNodeCommandRanges document value =
        Return
          (map (fun m =>
                  let contentStart :=
                    startPosition value + Z.of_nat (index m)
                    + Z.of_nat (length (group m 1)) in
                  newRange
                    (positionAt document contentStart)
                    (positionAt document
                       (contentStart + Z.of_nat (length (group m 2)))))
               rest))
  /\ (rawText = echoRaw ->
      getNodeCommandRanges document value =
      Return
        [newRange (positionAt document (startPosition value + 4))
                  (positionAt document (startPosition value + 10));
         newRange (positionAt document (startPosition value + 13))
                  (positionAt document (startPosition value + 19))]
      /\ slice echoRaw 4 10 = js "echo a"
      /\ slice echoRaw 13 19 = js "echo b")
  /\ (startsWithBar rawText = false ->
      getNodeCommandRanges document value =
      Return [newRange (positionAt document (startPosition value))
                       (positionAt document (endPosition value))]).
Proof.
  intros Hraw. unfold getNodeCommandRanges. rewrite Hraw.
  split; [|split].
  - intros Hbar. rewrite Hbar.
    destruct (matchAll_header rawText Hbar) as [rest Hm].
    exists (mkMatch 0 (runLength dot rawText)
                    [[]; firstn (runLength dot rawText) rawText]), rest.
    unfold lineMatches. rewrite Hm. repeat split.
  - intros ->.
    assert (E : lineMatches echoRaw
                = [mkMatch 2 8 [js "  "; js "echo a"];
                   mkMatch 11 8 [js "  "; js "echo b"]])
      by (vm_compute; reflexivity).
    assert (Hb : startsWithBar echoRaw = true) by reflexivity.
    rewrite Hb, E. split; [|split; reflexivity].
    unfold offsetsRange, lineOffsets. cbn [map fst snd].
    change (Z.of_nat (index (mkMatch 2 8 [js "  "; js "echo a"]))) with 2.
    change (Z.of_nat (index (mkMatch 11 8 [js "  "; js "echo b"]))) with 11.
    change (Z.of_nat (length (group (mkMatch 2 8 [js "  "; js "echo a"]) 1)))
      with 2.
    change (Z.of_nat (length (group (mkMatch 2 8 [js "  "; js "echo a"]) 2)))
      with 6.
    change (Z.of_nat (length (group (mkMatch 11 8 [js "  "; js "echo b"]) 1)))
      with 2.
    change (Z.of_nat (length (group (mkMatch 11 8 [js "  "; js "echo b"]) 2)))
      with 6.
    replace (startPosition value + 2 + 2) with (startPosition value + 4)
      by lia.
    replace (startPosition value + 4 + 6) with (startPosition value + 10)
      by lia.
    replace (startPosition value + 11 + 2) with (startPosition value + 13)
      by lia.
    replace (startPosition value + 13 + 6) with (startPosition value + 19)
      by lia.
    reflexivity.
  - intros Hbar. rewrite Hbar. reflexivity.
Qed.

Lemma getNodeCommandRanges_spec_witness :
  let document := plainDocument workflowPath echoRaw in
  let value := scalarNode 0 20 echoRaw in
  rawValue value = Some echoRaw
  /\ getNodeCommandRanges document value =
     Return
       [newRange (positionAt document (startPosition value + 4))
                 (positionAt document (startPosition value + 10));
        newRange (positionAt document (startPosition value + 13))
                 (positionAt document (startPosition value + 19))]
  /\ getNodeCommandRanges document value =
     Return [mkRange (mkPosition 1 2) (mkPosition 1 8);
             mkRange (mkPosition 2 2) (mkPosition 2 8)]
  /\ slice echoRaw 4 10 = js "echo a"
  /\ slice echoRaw 13 19 = js "echo b".
Proof.
  intros document value.
  assert (H : rawValue value = Some echoRaw) by reflexivity.
  split; [exact H|].
  destruct (proj1 (proj2 (getNodeCommandRanges_spec document value H))
                  eq_refl) as (Hranges & Ha & Hb).
  split; [exact Hranges | split; [reflexivity | split; assumption]].
Defined.

(** C6, as amended: every match the decomposer iterates over captures at
    least one content character, none of them a line terminator, after
    leading white space only; so every range of a block literal ends after
    it starts, and a line of white space gives no range of length zero. *)
Theorem lineMatches_have_content (rawText : jsstring) (m : RegexMatch)
  (value : YAMLNode) :
  In m (lineMatches rawText) ->
  (1 <= length (group m 2))%nat
  /\ forallb dot (group m 2) = true
  /\ forallb isWhiteSpace (group m 1) = true
  /\ fst (lineOffsets value m) < snd (lineOffsets value m).
Proof.
  intros Hin.
  assert (Hall : In m (matchAll linePattern rawText)).
  { unfold lineMatches in Hin.
    destruct (matchAll linePattern rawText); [contradiction|].
    right. exact Hin. }
  apply scan_in in Hall. destruct Hall as (prev & rest & He).
  apply exec_linePattern in He.
  destruct He as (a & b & Hg & Ha & Hb & _).
  assert (Hlen : length (group m 2) = b).
  { unfold group. rewrite Hg. cbn [Nat.sub nth].
    rewrite length_firstn. pose proof (runLength_le dot (skipn a rest)). lia. }
  repeat split.
  - lia.
  - unfold group. rewrite Hg. cbn [Nat.sub nth].
    apply runLength_firstn. lia.
  - unfold group. rewrite Hg. cbn [Nat.sub nth].
    apply runLength_firstn. exact Ha.
  - unfold lineOffsets. cbn [fst snd]. lia.
Qed.

Lemma lineMatches_have_content_witness :
  In (mkMatch 11 12 [js "   " ++ lf ++ js "  "; js "echo b"])
     (lineMatches blankLineRaw)
  /\ (1 <= length (group (mkMatch 11 12 [js "   " ++ lf ++ js "  ";
                                          js "echo b"]) 2))%nat
  /\ forallb dot (group (mkMatch 11 12 [js "   " ++ lf ++ js "  ";
                                        js "echo b"]) 2) = true
  /\ forallb isWhiteSpace
       (group (mkMatch 11 12 [js "   " ++ lf ++ js "  "; js "echo b"]) 1)
     = true
  /\ fst (lineOffsets blankLineValue
            (mkMatch 11 12 [js "   " ++ lf ++ js "  "; js "echo b"]))
     < snd (lineOffsets blankLineValue
              (mkMatch 11 12 [js "   " ++ lf ++ js "  "; js "echo b"])).
Proof.
  assert (H : In (mkMatch 11 12 [js "   " ++ lf ++ js "  "; js "echo b"])
                 (lineMatches blankLineRaw)).
  { vm_compute. right. left. reflexivity. }
  split; [exact H|].
  exact (lineMatches_have_content blankLineRaw _ blankLineValue H).
Defined.

(** C6 as stated fails: in a block literal with a line of three spaces
    between its two commands the decomposer iterates over two matches, one
    per command; the white space of the blank line and its line end are
    part of the leading white space of the second, whose content starts at
    offset 17; no range of length zero is made. *)
Lemma blank_line_gives_no_range :
  lineMatches blankLineRaw
  = [mkMatch 2 8 [js "  "; js "echo a"];
     mkMatch 11 12 [js "   " ++ lf ++ js "  "; js "echo b"]]
  /\ map (lineOffsets blankLineValue) (lineMatches blankLineRaw)
     = [(4, 10); (17, 23)]
  /\ slice blankLineRaw 11 14 = js "   "
  /\ getNodeCommandRanges (plainDocument workflowPath blankLineRaw)
       blankLineValue
     = Return [mkRange (mkPosition 1 2) (mkPosition 1 8);
               mkRange (mkPosition 3 2) (mkPosition 3 8)].
Proof. repeat split; vm_compute; reflexivity. Qed.

(** ** The one-shot registration *)

Lemma bridgeStep_invariant (st : BridgeState) (e : BridgeEvent) :
  bridgeInvariant st -> bridgeInvariant (bridgeStep st e).
Proof.
  unfold bridgeInvariant.
  destruct st as [flag awaiting acts regs], e as [editor installed| |];
    cbn [bridgeStep registerFigSupport figSupportRegistered
         awaitingActivation activateCalls registerCalls].
  - destruct editor, installed, flag; cbn; intros H; try exact H.
    destruct H as (-> & -> & _). auto.
  - destruct awaiting, flag; cbn; intros H; try exact H.
    + destruct H as (-> & ->). auto.
    + destruct H as (_ & _ & H). discriminate.
  - destruct awaiting, flag; cbn; intros H; try exact H.
    + destruct H as (-> & ->). auto.
    + destruct H as (_ & _ & H). discriminate.
Qed.

Lemma runBridge_invariant (events : list BridgeEvent) (st : BridgeState) :
  bridgeInvariant st -> bridgeInvariant (runBridge st events).
Proof.
  revert st. induction events as [|e events IH]; intros st H; [exact H|].
  apply IH, bridgeStep_invariant, H.
Qed.

Lemma registered_stays (st : BridgeState) (e : BridgeEvent) :
  figSupportRegistered st = true ->
  figSupportRegistered (bridgeStep st e) = true.
Proof.
  destruct st as [flag awaiting acts regs], e as [editor installed| |];
    cbn; intros ->.
  - destruct editor, installed; reflexivity.
  - destruct awaiting; reflexivity.
  - destruct awaiting; reflexivity.
Qed.

Lemma registrations_bound (events : list BridgeEvent) (st : BridgeState) :
  (registrations (bridgeTrace st events)
   <= if figSupportRegistered st then 0 else 1)%nat.
Proof.
  revert st. induction events as [|e events IH]; intros st.
  - simpl. destruct (figSupportRegistered st); lia.
  - cbn [bridgeTrace].
    specialize (IH (bridgeStep st e)).
    destruct events as [|e' events'];
      cbn [bridgeTrace registrations] in *;
      destruct (figSupportRegistered st) eqn:Hst.
    + rewrite (registered_stays _ e Hst). cbn. lia.
    + destruct (figSupportRegistered (bridgeStep st e)); cbn; lia.
    + rewrite (registered_stays _ e Hst) in *. cbn in *. lia.
    + destruct (figSupportRegistered (bridgeStep st e)); cbn in *; lia.
Qed.

(** C8: from the start, under any sequence of invocations and activation
    outcomes, the flag is set at most once, the extension is activated at
    most once and language support is registered at most once; the flag,
    once set, stays set, and an invocation that finds it set changes
    nothing. *)
Theorem registerFigSupport_registers_once (events : list BridgeEvent) :
  (registrations (bridgeTrace initialBridge events) <= 1)%nat
  /\ (activateCalls (runBridge initialBridge events) <= 1)%nat
  /\ (registerCalls (runBridge initialBridge events) <= 1)%nat
  /\ (forall st e,
         figSupportRegistered st = true ->
         figSupportRegistered (bridgeStep st e) = true)
  /\ (forall st editorMatchesSelector figInstalled,
         figSupportRegistered st = true ->
         registerFigSupport st editorMatchesSelector figInstalled = st).
Proof.
  assert (Hinv : bridgeInvariant (runBridge initialBridge events)).
  { apply runBridge_invariant. cbn. auto. }
  unfold bridgeInvariant in Hinv.
  split; [exact (registrations_bound events initialBridge)|].
  split; [|split; [|split]].
  - destruct (figSupportRegistered _); lia.
  - destruct (figSupportRegistered _); [|lia].
    destruct Hinv as [_ H]. destruct (awaitingActivation _); lia.
  - exact registered_stays.
  - intros st editor installed H. unfold registerFigSupport. rewrite H.
    destruct editor, installed; reflexivity.
Qed.

Lemma registerFigSupport_registers_once_witness :
  let events := [Invoke true true; Invoke true true; ActivationResolved;
                 Invoke true true] in
  let st := runBridge initialBridge events in
  figSupportRegistered st = true
  /\ activateCalls st = 1%nat
  /\ registerCalls st = 1%nat
  /\ (registrations (bridgeTrace initialBridge events) <= 1)%nat
  /\ registerFigSupport st true true = st.
Proof.
  intros events st.
  assert (H : figSupportRegistered st = true) by reflexivity.
  split; [exact H | split; [reflexivity | split; [reflexivity|]]].
  split.
  - exact (proj1 (registerFigSupport_registers_once events)).
  - exact (proj2 (proj2 (proj2 (proj2
             (registerFigSupport_registers_once events))))
             st true true H).
Defined.

(** ** The file-name test and the file selector *)

Lemma exec_complete (items : list RegexItem) (prev : option N)
  (rest : jsstring) :
  Accepts items prev rest -> exec items prev rest <> None.
Proof.
  induction 1 as [ | items prev rest Hs _ IH | items prev rest He _ IH
                   | capture cls min max items prev rest k Hmin Hk _ IH ];
    cbn [exec].
  - discriminate.
  - rewrite Hs. exact IH.
  - rewrite He. exact IH.
  - apply backtrack_complete with (j := k); [lia|].
    destruct (exec items (prevAfter prev rest k) (skipn k rest))
      as [[len caps]|]; [discriminate | contradiction].
Qed.

Lemma search_complete (items : list RegexItem) (suffix : jsstring) :
  (forall prev, Accepts items prev suffix) ->
  forall before prev, search items prev (before ++ suffix) = true.
Proof.
  intros Hacc.
  assert (Hhere : forall prev, search items prev suffix = true).
  { intros prev. pose proof (exec_complete (Hacc prev)) as H.
    destruct suffix; cbn [search];
      destruct (exec items prev _); try reflexivity; contradiction. }
  induction before as [|c before IH]; intros prev; [apply Hhere|].
  cbn [app search]. destruct (exec items prev (c :: before ++ suffix));
    [reflexivity | apply IH].
Qed.

Lemma runLength_app_all (cls : N -> bool) (a b : jsstring) :
  forallb cls a = true -> (length a <= runLength cls (a ++ b))%nat.
Proof.
  induction a as [|c a IH]; simpl; [lia|].
  destruct (cls c); [|discriminate]. simpl. intros H. specialize (IH H). lia.
Qed.

Lemma skipn_length_app (A : Type) (a b : list A) :
  skipn (length a) (a ++ b) = b.
Proof. induction a as [|x a IH]; simpl; auto. Qed.

Lemma isPrefix_app (a s : jsstring) :
  isPrefix a s = true -> exists t, s = a ++ t.
Proof.
  revert s. induction a as [|x a IH]; intros s; simpl.
  - exists s. reflexivity.
  - destruct s as [|y s]; [discriminate|].
    rewrite andb_true_iff, N.eqb_eq. intros [-> H].
    destruct (IH s H) as [t ->]. exists t. reflexivity.
Qed.

Lemma endsWith_app (s suffix : jsstring) :
  endsWith s suffix = true -> exists name, s = name ++ suffix.
Proof.
  unfold endsWith. intros H. apply isPrefix_app in H. destruct H as [t H].
  exists (rev t). rewrite <- (rev_involutive s), H, rev_app_distr,
    rev_involutive. reflexivity.
Qed.

Lemma exec_sound (items : list RegexItem) :
  forall prev rest r,
    exec items prev rest = Some r -> Accepts items prev rest.
Proof.
  induction items as [|item items IH]; intros prev rest r; cbn [exec].
  - constructor.
  - destruct item as [ | | capture cls min max].
    + destruct (atLineStart prev) eqn:Hs; [|discriminate].
      intros H. constructor; [exact Hs | eapply IH; exact H].
    + destruct (atLineEnd rest) eqn:He; [|discriminate].
      intros H. constructor; [exact He | eapply IH; exact H].
    + intros H. apply backtrack_some in H. destruct H as (k & Hk & H).
      destruct (exec items (prevAfter prev rest k) (skipn k rest))
        as [r'|] eqn:He; [|discriminate].
      apply Accepts_repeat with (k := k); [lia | lia | eapply IH; exact He].
Qed.

Lemma search_sound (items : list RegexItem) (s : jsstring) :
  forall prev,
    search items prev s = true ->
    exists before suffix prev',
      s = before ++ suffix /\ Accepts items prev' suffix.
Proof.
  induction s as [|c s IH]; intros prev; cbn [search].
  - destruct (exec items prev []) as [r|] eqn:He; [|discriminate].
    intros _. exists [], [], prev. split; [reflexivity|].
    exact (exec_sound _ _ _ He).
  - destruct (exec items prev (c :: s)) as [r|] eqn:He.
    + intros _. exists [], (c :: s), prev. split; [reflexivity|].
      exact (exec_sound _ _ _ He).
    + intros H. destruct (IH _ H) as (before & suffix & prev' & -> & Ha).
      exists (c :: before), suffix, prev'. split; [reflexivity | exact Ha].
Qed.

Lemma runLength_pos (cls : N -> bool) (rest : jsstring) :
  (1 <= runLength cls rest)%nat ->
  exists c rest', rest = c :: rest' /\ cls c = true.
Proof.
  destruct rest as [|c rest']; simpl; [lia|].
  destruct (cls c) eqn:Hc; [|lia]. intros _. exists c, rest'. auto.
Qed.

(** A repetition of exactly one code unit of a class. *)
Lemma accepts_one_inv (capture : bool) (cls : N -> bool)
  (items : list RegexItem) (prev : option N) (rest : jsstring) :
  Accepts (Repeat capture cls 1 (Some 1%nat) :: items) prev rest ->
  exists c rest',
    rest = c :: rest' /\ cls c = true /\ Accepts items (Some c) rest'.
Proof.
  intros H. inversion H as [ | | | ? ? ? ? ? ? ? k Hmin Hk Ha]; subst.
  cbn [capRun] in Hk.
  assert (k = 1%nat) as -> by lia.
  destruct (@runLength_pos cls rest) as (c & rest' & -> & Hc); [lia|].
  exists c, rest'. auto.
Qed.

(** A repetition of any number of code units of a class. *)
Lemma accepts_star_inv (capture : bool) (cls : N -> bool)
  (items : list RegexItem) (prev : option N) (rest : jsstring) :
  Accepts (Repeat capture cls 0 None :: items) prev rest ->
  exists taken rest' prev',
    rest = taken ++ rest' /\ forallb cls taken = true
    /\ Accepts items prev' rest'.
Proof.
  intros H. inversion H as [ | | | ? ? ? ? ? ? ? k Hmin Hk Ha]; subst.
  cbn [capRun] in Hk.
  exists (firstn k rest), (skipn k rest), (prevAfter prev rest k).
  rewrite firstn_skipn. repeat split; [apply runLength_firstn|]; assumption.
Qed.

(** An optional code unit. *)
Lemma accepts_optional_inv (capture : bool) (a : N)
  (items : list RegexItem) (prev : option N) (rest : jsstring) :
  Accepts (Repeat capture (N.eqb a) 0 (Some 1%nat) :: items) prev rest ->
  exists taken rest' prev',
    rest = taken ++ rest' /\ (taken = [] \/ taken = [a])
    /\ Accepts items prev' rest'.
Proof.
  intros H. inversion H as [ | | | ? ? ? ? ? ? ? k Hmin Hk Ha]; subst.
  cbn [capRun] in Hk. destruct k as [|[|k]].
  - exists [], rest, prev. auto.
  - destruct (@runLength_pos (N.eqb a) rest) as (c & rest' & -> & Hc); [lia|].
    apply N.eqb_eq in Hc. subst c.
    exists [a], rest', (Some a). auto.
  - lia.
Qed.

(** What the file-name pattern accepts at a position. *)
Lemma workflowFilePattern_accepts (prev : option N) (rest : jsstring) :
  Accepts workflowFilePattern prev rest <->
  exists taken c1 mid c2 optA post,
    rest = taken ++ c1 :: js "github/workflows/" ++ mid
                 ++ c2 :: 121%N :: optA ++ 109%N :: 108%N :: post
    /\ forallb dot taken = true /\ dot c1 = true
    /\ forallb dot mid = true /\ dot c2 = true
    /\ (optA = [] \/ optA = [97%N]).
Proof.
  split.
  - unfold workflowFilePattern. simpl (map literal _). cbn [app].
    intros H.
    apply accepts_star_inv in H.
    destruct H as (taken & r1 & p1 & -> & Htaken & H).
    apply accepts_one_inv in H. destruct H as (c1 & r2 & -> & Hc1 & H).
    do 17 (apply accepts_one_inv in H; destruct H as (c & ? & -> & E & H);
           apply N.eqb_eq in E; subst c).
    apply accepts_star_inv in H.
    destruct H as (mid & r3 & p3 & -> & Hmid & H).
    apply accepts_one_inv in H. destruct H as (c2 & r4 & -> & Hc2 & H).
    do 1 (apply accepts_one_inv in H; destruct H as (c & ? & -> & E & H);
           apply N.eqb_eq in E; subst c).
    apply accepts_optional_inv in H.
    destruct H as (optA & r5 & p5 & -> & HoptA & H).
    do 2 (apply accepts_one_inv in H; destruct H as (c & ? & -> & E & H);
           apply N.eqb_eq in E; subst c).
    exists taken, c1, mid, c2, optA. eexists.
    repeat split; assumption.
  - intros (taken & c1 & mid & c2 & optA & post & -> & Htaken & Hc1 & Hmid
            & Hc2 & HoptA).
    unfold workflowFilePattern. simpl (map literal _). cbn [app].
    simpl (js "github/workflows/"). cbn [app].
    apply Accepts_repeat with (k := length taken);
      [lia | cbn [capRun]; apply runLength_app_all; exact Htaken |].
    rewrite skipn_length_app. forget_prev.
    apply Accepts_repeat with (k := 1%nat);
      [lia | cbn [capRun runLength]; rewrite Hc1; cbn; lia
      | cbn [skipn]; forget_prev].
    do 17 accept_count 1%nat.
    apply Accepts_repeat with (k := length mid);
      [lia | cbn [capRun]; apply runLength_app_all; exact Hmid |].
    rewrite skipn_length_app. forget_prev.
    apply Accepts_repeat with (k := 1%nat);
      [lia | cbn [capRun runLength]; rewrite Hc2; cbn; lia
      | cbn [skipn]; forget_prev].
    accept_count 1%nat.
    destruct HoptA as [-> | ->]; cbn [app].
    + accept_count 0%nat. do 2 accept_count 1%nat. apply Accepts_nil.
    + do 3 accept_count 1%nat. apply Accepts_nil.
Qed.

(** The file-name test accepts exactly the paths in which, somewhere, one
    character is followed by [github/workflows/], then by characters of
    one line, one more character, [y], an optional [a] and [ml]. *)
Lemma matches_workflowFilePattern_iff (path : jsstring) :
  matches path workflowFilePattern = true <->
  exists before c1 mid c2 optA post,
    path = before ++ c1 :: js "github/workflows/" ++ mid
                  ++ c2 :: 121%N :: optA ++ 109%N :: 108%N :: post
    /\ dot c1 = true /\ forallb dot mid = true /\ dot c2 = true
    /\ (optA = [] \/ optA = [97%N]).
Proof.
  unfold matches. split.
  - intros H. apply search_sound in H.
    destruct H as (before & suffix & prev & -> & Ha).
    apply workflowFilePattern_accepts in Ha.
    destruct Ha as (taken & c1 & mid & c2 & optA & post & -> & _ & Hrest).
    exists (before ++ taken), c1, mid, c2, optA, post.
    rewrite <- app_assoc. split; [reflexivity | exact Hrest].
  - intros (before & c1 & mid & c2 & optA & post & -> & Hrest).
    apply search_complete. intros prev.
    apply workflowFilePattern_accepts.
    exists [], c1, mid, c2, optA, post. auto.
Qed.

(** C7, at inputs where the code departs from it: the file-name test
    accepts the backup copy of a workflow file and, outside any [.github]
    directory, a file whose name only ends in [yml], both of which the
    selector's rule refuses; and it refuses a workflow file whose path is
    written with backslashes, which the rule accepts. For the first the
    loader is called, for the last it is not. *)
Theorem file_test_differs_from_selector :
  matches (js "/r/.github/workflows/ci.yml.bak") workflowFilePattern = true
  /\ matchesWorkflowSelector (js "/r/.github/workflows/ci.yml.bak") = false
  /\ matches (js "/r/xgithub/workflows/notes-yml") workflowFilePattern = true
  /\ matchesWorkflowSelector (js "/r/xgithub/workflows/notes-yml") = false
  /\ matches (js "c:\r\.github\workflows\ci.yml") workflowFilePattern = false
  /\ matchesWorkflowSelector (js "c:\r\.github\workflows\ci.yml") = true
  /\ matches workflowPath workflowFilePattern = true
  /\ matchesWorkflowSelector workflowPath = true
  /\ getSupportedDocumentAst (fun _ => Return (Some workflowAst))
       (plainDocument (js "/r/.github/workflows/ci.yml.bak") workflowText)
     = Return (Some workflowAst)
  /\ getSupportedDocumentAst (fun _ => Return (Some workflowAst))
       (plainDocument (js "c:\r\.github\workflows\ci.yml") workflowText)
     = Return None.
Proof. repeat split; vm_compute; reflexivity. Qed.

(** * Further properties of the code *)

(** ** The locator *)

Lemma descent_end_contains (position : Z) (node : YAMLNode)
  (chain : list YAMLNode) (r : YAMLNode) :
  descent position node chain r -> containsOffset r position = true.
Proof. induction 1; assumption. Qed.

(** X1: [findNode] returns no node exactly when the span of the root does
    not contain the offset, and the path is then empty; the span of a node
    it returns contains the offset; it raises, a TypeError, exactly when
    its chain of first containing children comes to a [null] child before
    a containing one; in a tree without [null] children it returns a node
    whenever the span of the root contains the offset. *)
Theorem findNode_some_iff_contains (root : YAMLNode) (position : Z) :
  (forall path,
      findNode root position = Return (None, path)
      <-> containsOffset root position = false /\ path = [])
  /\ (forall node path,
         findNode root position = Return (Some node, path) ->
         containsOffset root position = true
         /\ containsOffset node position = true)
  /\ (forall e,
         findNode root position = Throw e
         <-> e = TypeError /\ descentMeetsNull position root)
  /\ (noNullChild root = true ->
      containsOffset root position = true ->
      exists node path, findNode root position = Return (Some node, path)).
Proof.
  unfold findNode. repeat split.
  - destruct (containsOffset root position) eqn:Hroot; [|reflexivity].
    destruct (descent_or_null position root Hroot)
      as [(chain & r & Hd) | Hnull].
    + rewrite (find_descent Hd) in H. discriminate.
    + rewrite (find_meetsNull Hnull) in H. discriminate.
  - destruct (containsOffset root position) eqn:Hroot.
    + destruct (descent_or_null position root Hroot)
        as [(chain & r & Hd) | Hnull].
      * rewrite (find_descent Hd) in H. discriminate.
      * rewrite (find_meetsNull Hnull) in H. discriminate.
    + rewrite (find_outside _ _ _ Hroot) in H. inversion H. reflexivity.
  - intros [Hroot ->]. apply find_outside, Hroot.
  - destruct (containsOffset root position) eqn:Hroot; [reflexivity|].
    rewrite (find_outside _ _ _ Hroot) in H. discriminate.
  - apply find_returns in H. destruct H as (chain & Hd & _).
    exact (descent_end_contains Hd).
  - apply find_throws in H. exact (proj1 H).
  - apply find_throws in H. exact (proj2 H).
  - intros [-> Hnull]. apply find_meetsNull, Hnull.
  - intros Hfree Hroot.
    destruct (@descent_exists position root Hfree Hroot)
      as (chain & r & Hd).
    exists r, (chainKeys truthyKey chain).
    rewrite (find_descent Hd). reflexivity.
Qed.

(** X2: the path given to [find] does not change what it finds and is
    never shortened: the result is the node found from an empty path, and
    the given path followed by the keys pushed from an empty path. *)
Theorem find_appends_to_path (position : Z) (node : YAMLNode)
  (path : list jsstring) :
  find position node path
  = match find position node [] with
    | Return (found, pushed) => Return (found, path ++ pushed)
    | Throw e => Throw e
    end.
Proof.
  destruct (containsOffset node position) eqn:Hnode.
  - destruct (descent_or_null position node Hnode)
      as [(chain & r & Hd) | Hnull].
    + rewrite !(find_descent Hd). reflexivity.
    + rewrite !(find_meetsNull Hnull). reflexivity.
  - rewrite !(find_outside _ _ _ Hnode). rewrite app_nil_r. reflexivity.
Qed.

(** ** The collector *)

Lemma collected_iff (root : YAMLNode) (pattern : list jsstring)
  (nodes : list YAMLNode) (v : YAMLNode) :
  getAllMatchingNodes root pattern = Return nodes ->
  (In v nodes <->
   exists chain node k,
     treePath root chain node
     /\ truthyKey node = Some k
     /\ pathMatches pattern (chainKeys truthyKey chain) = true
     /\ value node = Some v).
Proof.
  intros Hnodes. unfold getAllMatchingNodes in Hnodes.
  destruct (collect_result pattern root 0 []) as [E | E];
    rewrite E in Hnodes; [|discriminate].
  inversion Hnodes; subst nodes. clear Hnodes E.
  unfold valuesBelow. cbn [app skipn].
  rewrite in_flat_map. split.
  - intros ([q m] & Hin & Hv). unfold matchedValue in Hv. cbn [fst snd] in Hv.
    destruct (truthyKey m) as [k|] eqn:Hk; [|contradiction].
    destruct (pathMatches pattern q) eqn:Hq; [|contradiction].
    destruct (value m) as [v'|] eqn:Hval; [|contradiction].
    destruct Hv as [<-|[]].
    apply walk_paths in Hin. destruct Hin as (chain & Htp & ->).
    exists chain, m, k. auto.
  - intros (chain & node & k & Htp & Hk & Hq & Hval).
    exists (chainKeys truthyKey chain, node). split.
    + apply walk_paths. exists chain. auto.
    + unfold matchedValue. cbn [fst snd]. rewrite Hk, Hq, Hval.
      left. reflexivity.
Qed.

(** X3: when the collector returns, a node is in its result exactly when
    it is the value of a node with a non-empty key at the end of a chain
    from the root whose non-empty keys match the pattern. *)
Theorem getAllMatchingNodes_in_iff (root : YAMLNode)
  (pattern : list jsstring) (nodes : list YAMLNode) (v : YAMLNode) :
  getAllMatchingNodes root pattern = Return nodes ->
  (In v nodes <->
   exists chain node k,
     treePath root chain node
     /\ truthyKey node = Some k
     /\ pathMatches pattern (chainKeys truthyKey chain) = true
     /\ value node = Some v).
Proof. exact (@collected_iff root pattern nodes v). Qed.

Lemma getAllMatchingNodes_in_iff_witness :
  getAllMatchingNodes workflowAst enablePath
  = Return [workflowRun1; workflowRun2]
  /\ (In workflowRun2 [workflowRun1; workflowRun2] <->
      exists chain node k,
        treePath workflowAst chain node
        /\ truthyKey node = Some k
        /\ pathMatches enablePath (chainKeys truthyKey chain) = true
        /\ value node = Some workflowRun2).
Proof.
  assert (H : getAllMatchingNodes workflowAst enablePath
              = Return [workflowRun1; workflowRun2]) by reflexivity.
  split; [exact H|].
  exact (getAllMatchingNodes_in_iff workflowAst enablePath workflowRun2 H).
Defined.

(** X4: with the empty pattern the collector never collects a node: it
    returns the empty list or raises a TypeError, and in a tree without
    [null] children it returns the empty list. *)
Theorem getAllMatchingNodes_empty_pattern (root : YAMLNode) :
  (getAllMatchingNodes root [] = Return []
   \/ getAllMatchingNodes root [] = Throw TypeError)
  /\ (noNullChild root = true -> getAllMatchingNodes root [] = Return []).
Proof.
  assert (E : valuesBelow [] 0 root = [])
    by (unfold valuesBelow; cbn [skipn]; apply nothing_matches_nil).
  unfold getAllMatchingNodes. split.
  - destruct (collect_result [] root 0 []) as [H | H]; [left | right; exact H].
    rewrite H, E. reflexivity.
  - intros Hfree. rewrite (@collect_noNullChild [] root Hfree), E.
    reflexivity.
Qed.




(** ** The queries *)

(** X5: a range returned by the point query contains the queried position,
    and is returned only for a document whose file name passes the test. *)
Theorem point_query_range_contains_position
  (safeLoad : jsstring -> Completion (option YAMLNode))
  (document : TextDocument) (position : Position) (r : Range) :
  provideSingleLineRangeFromPosition safeLoad document position
  = Return (Some r) ->
  rangeContains r position = true
  /\ matches (fileName document) workflowFilePattern = true.
Proof.
  unfold provideSingleLineRangeFromPosition, getSupportedDocumentAst,
    simpleYamlParse.
  destruct (matches (fileName document) workflowFilePattern);
    cbn [negb bind]; [|discriminate].
  destruct (safeLoad (getText document)) as [[ast|]|e]; cbn [bind];
    try discriminate.
  destruct (findNode ast (offsetAt document position))
    as [[[node|] path]|e]; cbn [bind]; try discriminate.
  destruct (value node) as [v|]; [|discriminate].
  destruct (_ && _); [|discriminate].
  destruct (isInRun path); [|discriminate].
  destruct (getNodeCommandRanges document v) as [ranges|e]; cbn [bind];
    [|discriminate].
  intros E. inversion E as [Hf]. apply find_some in Hf.
  split; [exact (proj2 Hf) | reflexivity].
Qed.

Lemma point_query_range_contains_position_witness :
  provideSingleLineRangeFromPosition
    (fun _ => Return (Some workflowAst)) workflowDocument (mkPosition 4 12)
  = Return (Some (mkRange (mkPosition 4 10) (mkPosition 4 16)))
  /\ rangeContains (mkRange (mkPosition 4 10) (mkPosition 4 16))
       (mkPosition 4 12) = true
  /\ matches (fileName workflowDocument) workflowFilePattern = true.
Proof.
  assert (H : provideSingleLineRangeFromPosition
                (fun _ => Return (Some workflowAst)) workflowDocument
                (mkPosition 4 12)
              = Return (Some (mkRange (mkPosition 4 10) (mkPosition 4 16))))
    by reflexivity.
  split; [exact H|].
  exact (point_query_range_contains_position _ _ _ H).
Defined.

Lemma flatMapM_concat (A B : Type) (f : A -> Completion (list B))
  (xs : list A) (per : list (list B)) :
  Forall2 (fun x ys => f x = Return ys) xs per ->
  flatMapM f xs = Return (concat per).
Proof.
  induction 1 as [|x ys xs per Hx _ IH]; simpl; [reflexivity|].
  rewrite Hx. simpl. rewrite IH. reflexivity.
Qed.

Lemma flatMapM_return_in (A B : Type) (f : A -> Completion (list B))
  (xs : list A) (all : list B) :
  flatMapM f xs = Return all ->
  forall x, In x xs -> exists ys, f x = Return ys /\ incl ys all.
Proof.
  revert all. induction xs as [|x0 xs IH]; intros all; cbn [flatMapM].
  - intros _ x [].
  - destruct (f x0) as [ys0|e] eqn:Hx0; cbn [bind]; [|discriminate].
    destruct (flatMapM f xs) as [zs|e] eqn:Hxs; cbn [bind]; [|discriminate].
    intros E x Hin. inversion E; subst.
    destruct Hin as [<-|Hin].
    + exists ys0. split; [exact Hx0 | apply incl_appl, incl_refl].
    + destruct (IH zs eq_refl x Hin) as (ys & Hy & Hincl).
      exists ys. split; [exact Hy | apply incl_appr, Hincl].
Qed.

Lemma flatMapM_throw_in (A B : Type) (f : A -> Completion (list B))
  (xs : list A) (e : Exception) :
  flatMapM f xs = Throw e -> exists x, In x xs /\ f x = Throw e.
Proof.
  induction xs as [|x0 xs IH]; cbn [flatMapM]; [discriminate|].
  destruct (f x0) as [ys0|e0] eqn:Hx0; cbn [bind].
  - destruct (flatMapM f xs) as [zs|e1] eqn:Hxs; cbn [bind]; [discriminate|].
    intros E. inversion E; subst.
    destruct (IH eq_refl) as (x & Hin & Hx).
    exists x. split; [right; exact Hin | exact Hx].
  - intros E. inversion E; subst. exists x0. split; [left; reflexivity|].
    exact Hx0.
Qed.

Lemma flatMapM_in_throws (A B : Type) (f : A -> Completion (list B))
  (xs : list A) (x : A) (e : Exception) :
  In x xs -> f x = Throw e -> exists e', flatMapM f xs = Throw e'.
Proof.
  induction xs as [|x0 xs IH]; cbn [flatMapM]; [intros []|].
  intros [<-|Hin] Hx.
  - rewrite Hx. exists e. reflexivity.
  - destruct (f x0) as [ys0|e0]; cbn [bind]; [|exists e0; reflexivity].
    destruct (IH Hin Hx) as [e' ->]. exists e'. reflexivity.
Qed.

(** X6: the two queries agree. When the located node is a mapping entry
    (it has a non-empty key), a range the point query returns is one of
    the ranges the enumerate-all query returns for the same document. *)
Theorem point_query_range_is_enumerated
  (safeLoad : jsstring -> Completion (option YAMLNode))
  (document : TextDocument) (position : Position) (ast node : YAMLNode)
  (path : list jsstring) (k : jsstring) (r : Range) (all : list Range) :
  matches (fileName document) workflowFilePattern = true ->
  safeLoad (getText document) = Return (Some ast) ->
  findNode ast (offsetAt document position) = Return (Some node, path) ->
  truthyKey node = Some k ->
  provideSingleLineRangeFromPosition safeLoad document position
  = Return (Some r) ->
  getAllSingleLineCommandLocations safeLoad document = Return (Some all) ->
  In r all.
Proof.
  intros Hfile Hload Hfind Hk Hpoint Hall.
  apply (point_query_range_iff safeLoad document position r Hfile Hload)
    in Hpoint.
  destruct Hpoint as (node' & path' & v & ranges & Hfind' & Hval & _ & Hq
                      & Hranges & Hf).
  rewrite Hfind in Hfind'. inversion Hfind'; subst node' path'.
  unfold getAllSingleLineCommandLocations, getSupportedDocumentAst,
    simpleYamlParse in Hall.
  rewrite Hfile in Hall. cbn [negb] in Hall. rewrite Hload in Hall.
  cbn [bind] in Hall.
  destruct (getAllMatchingNodes ast enablePath) as [nodes|e] eqn:Hnodes;
    cbn [bind] in Hall; [|discriminate].
  assert (Hv : In v nodes).
  { apply (@collected_iff ast enablePath nodes v Hnodes).
    unfold findNode in Hfind. apply find_returns in Hfind.
    destruct Hfind as (chain & Hd & ->). cbn [app] in Hq.
    exists chain, node, k. repeat split; auto.
    exact (descent_treePath Hd). }
  destruct (flatMapM (getNodeCommandRanges document) nodes)
    as [ranges'|e] eqn:Hflat; cbn [bind] in Hall; [|discriminate].
  inversion Hall; subst ranges'.
  destruct (flatMapM_return_in _ _ Hflat v Hv) as (ys & Hy & Hincl).
  rewrite Hranges in Hy. inversion Hy; subst ys.
  apply Hincl. apply find_some in Hf. exact (proj1 Hf).
Qed.

Lemma point_query_range_is_enumerated_witness :
  let safeLoad := fun _ : jsstring => Return (Some workflowAst) in
  let r (l a b : Z) := mkRange (mkPosition l a) (mkPosition l b) in
  matches (fileName workflowDocument) workflowFilePattern = true
  /\ findNode workflowAst (offsetAt workflowDocument (mkPosition 4 12))
     = Return (Some (entryNode 34 75 (js "run") workflowRun1),
               [js "jobs"; js "build"; js "steps"; js "run"])
  /\ provideSingleLineRangeFromPosition safeLoad workflowDocument
       (mkPosition 4 12)
     = Return (Some (r 4 10 16))
  /\ getAllSingleLineCommandLocations safeLoad workflowDocument
     = Return (Some [r 4 10 16; r 5 10 16; r 6 13 15])
  /\ In (r 4 10 16) [r 4 10 16; r 5 10 16; r 6 13 15].
Proof.
  intros safeLoad r.
  assert (Hfile : matches (fileName workflowDocument) workflowFilePattern
                  = true) by reflexivity.
  assert (Hload : safeLoad (getText workflowDocument)
                  = Return (Some workflowAst)) by reflexivity.
  assert (Hfind : findNode workflowAst
                    (offsetAt workflowDocument (mkPosition 4 12))
                  = Return (Some (entryNode 34 75 (js "run") workflowRun1),
                            [js "jobs"; js "build"; js "steps"; js "run"]))
    by reflexivity.
  assert (Hk : truthyKey (entryNode 34 75 (js "run") workflowRun1)
               = Some (js "run")) by reflexivity.
  assert (Hpoint : provideSingleLineRangeFromPosition safeLoad
                     workflowDocument (mkPosition 4 12)
                   = Return (Some (r 4 10 16))) by reflexivity.
  assert (Hall : getAllSingleLineCommandLocations safeLoad workflowDocument
                 = Return (Some [r 4 10 16; r 5 10 16; r 6 13 15]))
    by reflexivity.
  split; [exact Hfile | split; [exact Hfind | split; [exact Hpoint |]]].
  split; [exact Hall|].
  exact (point_query_range_is_enumerated safeLoad workflowDocument
           (mkPosition 4 12) Hfile Hload Hfind Hk Hpoint Hall).
Defined.

(** X7: for a workflow document with an AST, the enumerate-all query
    raises exactly when the collector raises, or returns a value that has
    no [rawValue] (a [run] key given a map or a sequence); what it raises
    is a TypeError. *)
Theorem enumerate_raises_iff
  (safeLoad : jsstring -> Completion (option YAMLNode))
  (document : TextDocument) (ast : YAMLNode) (e : Exception) :
  matches (fileName document) workflowFilePattern = true ->
  safeLoad (getText document) = Return (Some ast) ->
  (getAllSingleLineCommandLocations safeLoad document = Throw e
   <-> e = TypeError
       /\ (getAllMatchingNodes ast enablePath = Throw TypeError
           \/ exists nodes v,
                getAllMatchingNodes ast enablePath = Return nodes
                /\ In v nodes /\ rawValue v = None)).
Proof.
  intros Hfile Hload.
  unfold getAllSingleLineCommandLocations, getSupportedDocumentAst,
    simpleYamlParse.
  rewrite Hfile. cbn [negb]. rewrite Hload. cbn [bind].
  destruct (getAllMatchingNodes ast enablePath) as [nodes|e1] eqn:Hnodes;
    cbn [bind].
  - destruct (flatMapM (getNodeCommandRanges document) nodes)
      as [ranges|e0] eqn:Hflat; cbn [bind].
    + split; [discriminate|].
      intros (_ & [H | (nodes' & v & H & Hin & Hraw)]); [discriminate|].
      inversion H; subst nodes'.
      assert (Ht : getNodeCommandRanges document v = Throw TypeError)
        by (apply getNodeCommandRanges_raises; auto).
      destruct (flatMapM_in_throws _ _ _ Hin Ht) as [e' He'].
      rewrite Hflat in He'. discriminate.
    + destruct (flatMapM_throw_in _ _ Hflat) as (v & Hin & Hv).
      apply getNodeCommandRanges_raises in Hv. destruct Hv as [Hraw ->].
      split.
      * intros E. inversion E; subst. split; [reflexivity|]. right.
        exists nodes, v. auto.
      * intros [-> _]. reflexivity.
  - assert (e1 = TypeError) as ->.
    { unfold getAllMatchingNodes in Hnodes.
      destruct (collect_result enablePath ast 0 []) as [E | E];
        rewrite E in Hnodes; [discriminate|].
      inversion Hnodes. reflexivity. }
    split.
    + intros E. inversion E. auto.
    + intros [-> _]. reflexivity.
Qed.

Lemma enumerate_raises_iff_witness :
  matches (fileName emptyRunDocument) workflowFilePattern = true
  /\ getAllSingleLineCommandLocations
       (fun _ => Return (Some emptyRunAst)) emptyRunDocument
     = Throw TypeError
  /\ getAllMatchingNodes emptyRunAst enablePath = Return [seqNode 35 37 []]
  /\ rawValue (seqNode 35 37 []) = None.
Proof.
  assert (Hfile : matches (fileName emptyRunDocument) workflowFilePattern
                  = true) by reflexivity.
  assert (Hload : (fun _ : jsstring => Return (Some emptyRunAst))
                    (getText emptyRunDocument)
                  = Return (Some emptyRunAst)) by reflexivity.
  assert (Hnodes : getAllMatchingNodes emptyRunAst enablePath
                   = Return [seqNode 35 37 []]) by reflexivity.
  split; [exact Hfile | split; [| split; [exact Hnodes | reflexivity]]].
  apply (proj2 (enumerate_raises_iff
                  (fun _ => Return (Some emptyRunAst)) emptyRunDocument
                  TypeError Hfile Hload)).
  split; [reflexivity|]. right. exists [seqNode 35 37 []], (seqNode 35 37 []).
  split; [exact Hnodes | split; [left; reflexivity | reflexivity]].
Defined.

(** X19: when the collector returns and every value it returns carries a
    [rawValue], the enumerate-all query returns the decompositions of the
    collected values concatenated, in the order of the collected values
    and then of their lines; its length is the sum of theirs. *)
Theorem enumerate_flattens_collected
  (safeLoad : jsstring -> Completion (option YAMLNode))
  (document : TextDocument) (ast : YAMLNode) (nodes : list YAMLNode) :
  matches (fileName document) workflowFilePattern = true ->
  safeLoad (getText document) = Return (Some ast) ->
  getAllMatchingNodes ast enablePath = Return nodes ->
  Forall (fun v => rawValue v <> None) nodes ->
  exists perNode,
    Forall2 (fun v ranges => getNodeCommandRanges document v = Return ranges)
            nodes perNode
    /\ getAllSingleLineCommandLocations safeLoad document
       = Return (Some (concat perNode))
    /\ length (concat perNode) = list_sum (map (@length Range) perNode).
Proof.
  intros Hfile Hload Hnodes Hraw.
  assert (Hper : exists perNode,
    Forall2 (fun v ranges => getNodeCommandRanges document v = Return ranges)
            nodes perNode).
  { clear Hnodes. induction Hraw as [|v vs Hv _ [perNode IH]].
    - exists []. constructor.
    - destruct (getNodeCommandRanges document v) as [ranges|e] eqn:E.
      + exists (ranges :: perNode). constructor; assumption.
      + apply getNodeCommandRanges_raises in E. tauto. }
  destruct Hper as [perNode Hper]. exists perNode.
  split; [exact Hper|].
  unfold getAllSingleLineCommandLocations, getSupportedDocumentAst,
    simpleYamlParse.
  rewrite Hfile, Hload. cbn [negb bind]. rewrite Hnodes. cbn [bind].
  rewrite (flatMapM_concat _ Hper). cbn [bind].
  split; [reflexivity | apply length_concat].
Qed.

Lemma enumerate_flattens_collected_witness :
  let safeLoad := fun _ : jsstring => Return (Some workflowAst) in
  let r (l a b : Z) := mkRange (mkPosition l a) (mkPosition l b) in
  matches (fileName workflowDocument) workflowFilePattern = true
  /\ getAllMatchingNodes workflowAst enablePath
     = Return [workflowRun1; workflowRun2]
  /\ getAllSingleLineCommandLocations safeLoad workflowDocument
     = Return (Some [r 4 10 16; r 5 10 16; r 6 13 15])
  /\ exists perNode,
       Forall2
         (fun v ranges =>
            getNodeCommandRanges workflowDocument v = Return ranges)
         [workflowRun1; workflowRun2] perNode
       /\ getAllSingleLineCommandLocations safeLoad workflowDocument
          = Return (Some (concat perNode))
       /\ length (concat perNode) = list_sum (map (@length Range) perNode).
Proof.
  intros safeLoad r.
  assert (Hfile : matches (fileName workflowDocument) workflowFilePattern
                  = true) by reflexivity.
  assert (Hload : safeLoad (getText workflowDocument)
                  = Return (Some workflowAst)) by reflexivity.
  assert (Hnodes : getAllMatchingNodes workflowAst enablePath
                   = Return [workflowRun1; workflowRun2]) by reflexivity.
  assert (Hraw : Forall (fun v => rawValue v <> None)
                        [workflowRun1; workflowRun2])
    by (repeat constructor; discriminate).
  split; [exact Hfile | split; [exact Hnodes | split; [reflexivity|]]].
  exact (enumerate_flattens_collected safeLoad workflowDocument
           Hfile Hload Hnodes Hraw).
Defined.

(** ** The file-name test *)

(** X21: the file-name test of [getSupportedDocumentAst] is a search for
    the pattern anywhere in the path, with dots that stand for any
    character of a line: it accepts exactly the paths in which one such
    character is followed by [github/workflows/], then by characters of
    one line, one more such character, [y], an optional [a] and [ml]; the
    loader is called exactly on the paths it accepts. *)
Theorem workflow_file_test_spec
  (safeLoad : jsstring -> Completion (option YAMLNode))
  (document : TextDocument) :
  (matches (fileName document) workflowFilePattern = true <->
   exists before c1 mid c2 optA post,
     fileName document
     = before ++ c1 :: js "github/workflows/" ++ mid
              ++ c2 :: js "y" ++ optA ++ js "ml" ++ post
     /\ dot c1 = true /\ forallb dot mid = true /\ dot c2 = true
     /\ (optA = [] \/ optA = js "a"))
  /\ getSupportedDocumentAst safeLoad document
     = if matches (fileName document) workflowFilePattern
       then safeLoad (getText document)
       else Return None.
Proof.
  split; [exact (matches_workflowFilePattern_iff (fileName document))|].
  unfold getSupportedDocumentAst, simpleYamlParse.
  destruct (matches (fileName document) workflowFilePattern); reflexivity.
Qed.

Lemma in_js_github_slash : In slash (js "github/workflows/").
Proof. vm_compute. tauto. Qed.

(** X8: a path with no [/] in it, such as a path written with
    backslashes, never passes the file-name test: no AST is loaded for it
    and both queries return nothing. *)
Theorem path_without_slash_not_recognised
  (safeLoad : jsstring -> Completion (option YAMLNode))
  (document : TextDocument) (position : Position) :
  forallb (fun c => negb (N.eqb c slash)) (fileName document) = true ->
  matches (fileName document) workflowFilePattern = false
  /\ getSupportedDocumentAst safeLoad document = Return None
  /\ provideSingleLineRangeFromPosition safeLoad document position
     = Return None
  /\ getAllSingleLineCommandLocations safeLoad document = Return None.
Proof.
  intros Hno.
  assert (Hm : matches (fileName document) workflowFilePattern = false).
  { destruct (matches (fileName document) workflowFilePattern) eqn:Hm;
      [|reflexivity].
    exfalso. apply matches_workflowFilePattern_iff in Hm.
    destruct Hm as (before & c1 & mid & c2 & optA & post & Hp & _).
    rewrite forallb_forall in Hno. specialize (Hno slash).
    rewrite N.eqb_refl in Hno. cbn in Hno.
    assert (false = true); [|discriminate]. apply Hno.
    rewrite Hp. apply in_or_app. right. right.
    apply in_or_app. left. exact in_js_github_slash. }
  unfold provideSingleLineRangeFromPosition, getAllSingleLineCommandLocations,
    getSupportedDocumentAst. rewrite Hm. repeat split; reflexivity.
Qed.

Lemma path_without_slash_not_recognised_witness :
  let document :=
    plainDocument (js "c:\r\.github\workflows\ci.yml") workflowText in
  forallb (fun c => negb (N.eqb c slash)) (fileName document) = true
  /\ matches (fileName document) workflowFilePattern = false
  /\ getSupportedDocumentAst (fun _ => Return (Some workflowAst)) document
     = Return None
  /\ provideSingleLineRangeFromPosition
       (fun _ => Return (Some workflowAst)) document (mkPosition 4 12)
     = Return None
  /\ getAllSingleLineCommandLocations
       (fun _ => Return (Some workflowAst)) document
     = Return None.
Proof.
  intros document.
  assert (H : forallb (fun c => negb (N.eqb c slash)) (fileName document)
              = true) by reflexivity.
  split; [exact H|].
  exact (path_without_slash_not_recognised
           (fun _ => Return (Some workflowAst)) document (mkPosition 4 12) H).
Defined.

(** X9: the file-name test is a search: a path that passes it still passes
    with anything put before it and after it. *)
Theorem file_test_ignores_surroundings (before path after : jsstring) :
  matches path workflowFilePattern = true ->
  matches (before ++ path ++ after) workflowFilePattern = true.
Proof.
  intros H. apply matches_workflowFilePattern_iff in H.
  destruct H as (b & c1 & mid & c2 & optA & post & -> & Hrest).
  apply matches_workflowFilePattern_iff.
  exists (before ++ b), c1, mid, c2, optA, (post ++ after).
  split; [|exact Hrest].
  rewrite <- !app_assoc. cbn [app]. f_equal. f_equal.
  rewrite <- !app_assoc. cbn [app]. f_equal. f_equal.
  rewrite <- !app_assoc. cbn [app]. reflexivity.
Qed.

Lemma file_test_ignores_surroundings_witness :
  matches workflowPath workflowFilePattern = true
  /\ matches (js "backup of " ++ workflowPath ++ js ".orig")
       workflowFilePattern = true.
Proof.
  assert (H : matches workflowPath workflowFilePattern = true)
    by reflexivity.
  split; [exact H|].
  exact (file_test_ignores_surroundings (js "backup of ") workflowPath
           (js ".orig") H).
Defined.

(** ** The lines of a block literal *)

Lemma scan_match_at (items : list RegexItem) (rest : jsstring) :
  forall prev p lastIndex m,
    In m (scan items prev rest p lastIndex) ->
    exists k prev',
      (k <= length rest)%nat /\ index m = (p + k)%nat
      /\ exec items prev' (skipn k rest) = Some (matchLength m, groups m).
Proof.
  induction rest as [|c rest IH]; intros prev p lastIndex m; cbn [scan].
  - destruct (p <? lastIndex)%nat;
      [intros [] | destruct (exec items prev []) as [[len caps]|] eqn:He].
    + intros [<-|[]]. exists 0%nat, prev. cbn. auto.
    + intros [].
  - assert (Hrest : forall li,
               In m (scan items (Some c) rest (S p) li) ->
               exists k prev',
                 (k <= length (c :: rest))%nat /\ index m = (p + k)%nat
                 /\ exec items prev' (skipn k (c :: rest))
                    = Some (matchLength m, groups m)).
    { intros li Hin. destruct (IH _ _ _ _ Hin) as (k & prev' & Hk & Hi & He).
      exists (S k), prev'. cbn [length skipn]. repeat split; [lia | lia |].
      exact He. }
    destruct (p <? lastIndex)%nat; [apply Hrest|].
    destruct (exec items prev (c :: rest)) as [[len caps]|] eqn:He.
    + intros [<-|H]; [|eapply Hrest; exact H].
      exists 0%nat, prev. cbn [skipn index matchLength groups length].
      repeat split; [lia | lia | exact He].
    + apply Hrest.
Qed.

Lemma orderedFrom_weaken (lo lo' : nat) (ms : list RegexMatch) :
  (lo' <= lo)%nat -> orderedFrom lo ms -> orderedFrom lo' ms.
Proof.
  destruct ms as [|m ms]; cbn; [auto|]. intros H [H1 H2]. split; [lia|auto].
Qed.

Lemma scan_ordered (items : list RegexItem) (rest : jsstring) :
  forall prev p lastIndex lo,
    (lo <= Nat.max p lastIndex)%nat ->
    orderedFrom lo (scan items prev rest p lastIndex).
Proof.
  induction rest as [|c rest IH]; intros prev p lastIndex lo Hlo; cbn [scan].
  - destruct (p <? lastIndex)%nat eqn:Hlt; [exact I|].
    apply Nat.ltb_ge in Hlt.
    destruct (exec items prev []) as [[len caps]|]; [|exact I].
    cbn. split; [lia | exact I].
  - destruct (p <? lastIndex)%nat eqn:Hlt.
    + apply IH. lia.
    + apply Nat.ltb_ge in Hlt.
      destruct (exec items prev (c :: rest)) as [[len caps]|].
      * cbn [orderedFrom index matchLength]. split; [lia|].
        apply IH. destruct (len =? 0)%nat eqn:Hz.
        -- apply Nat.eqb_eq in Hz. lia.
        -- lia.
      * apply IH. lia.
Qed.

(** What the decomposer reads off one match of a raw text. *)
Lemma lineMatch_shape (rawText : jsstring) (m : RegexMatch) :
  In m (matchAll linePattern rawText) ->
  exists a b,
    groups m = [firstn a (skipn (index m) rawText);
                firstn b (skipn (index m + a) rawText)]
    /\ length (group m 1) = a /\ length (group m 2) = b
    /\ (1 <= b)%nat /\ matchLength m = (a + b)%nat
    /\ (index m + a + b <= length rawText)%nat.
Proof.
  intros Hin. unfold matchAll in Hin. apply scan_match_at in Hin.
  destruct Hin as (k & prev & Hk & Hi & He). cbn [Nat.add] in Hi. subst k.
  apply exec_linePattern in He.
  destruct He as (a & b & Hg & Ha & Hb & Hlen).
  pose proof (runLength_le isWhiteSpace (skipn (index m) rawText)) as La.
  pose proof (runLength_le dot (skipn a (skipn (index m) rawText))) as Lb.
  rewrite !length_skipn in *.
  exists a, b. unfold group. rewrite Hg. cbn [Nat.sub nth].
  rewrite skipn_skipn, (Nat.add_comm a), !length_firstn, !length_skipn.
  repeat split; try lia.
Qed.

(** X10: each range of a block literal delimits exactly what the content
    group of its line captured: the raw text between the two offsets,
    taken from the start of the value, is that content, and the offsets
    lie within the raw text. *)
Theorem line_range_is_the_content (rawText : jsstring) (m : RegexMatch)
  (value : YAMLNode) :
  In m (lineMatches rawText) ->
  let startOffset := fst (lineOffsets value m) in
  let endOffset := snd (lineOffsets value m) in
  slice rawText (Z.to_nat (startOffset - startPosition value))
                (Z.to_nat (endOffset - startPosition value))
  = group m 2
  /\ startPosition value <= startOffset
  /\ startOffset < endOffset
  /\ endOffset <= startPosition value + Z.of_nat (length rawText).
Proof.
  intros Hin.
  assert (Hall : In m (matchAll linePattern rawText)).
  { unfold lineMatches in Hin.
    destruct (matchAll linePattern rawText); [contradiction|].
    right. exact Hin. }
  destruct (lineMatch_shape _ _ Hall) as (a & b & Hg & Ha & Hb & Hb1 & _ & Hle).
  unfold lineOffsets. cbn [fst snd]. rewrite Ha, Hb.
  repeat split; try lia.
  unfold slice.
  replace (Z.to_nat (startPosition value + Z.of_nat (index m) + Z.of_nat a
                     - startPosition value))
    with (index m + a)%nat by lia.
  replace (Z.to_nat (startPosition value + Z.of_nat (index m) + Z.of_nat a
                     + Z.of_nat b - startPosition value) - (index m + a))%nat
    with b by lia.
  unfold group. rewrite Hg. reflexivity.
Qed.

Lemma line_range_is_the_content_witness :
  In (mkMatch 11 12 [js "   " ++ lf ++ js "  "; js "echo b"])
     (lineMatches blankLineRaw)
  /\ slice blankLineRaw 17 23 = js "echo b"
  /\ lineOffsets blankLineValue
       (mkMatch 11 12 [js "   " ++ lf ++ js "  "; js "echo b"])
     = (17, 23).
Proof.
  assert (H : In (mkMatch 11 12 [js "   " ++ lf ++ js "  "; js "echo b"])
                 (lineMatches blankLineRaw)).
  { vm_compute. right. left. reflexivity. }
  split; [exact H|].
  split; [|reflexivity].
  exact (proj1 (line_range_is_the_content blankLineRaw _ blankLineValue H)).
Defined.

Lemma offsets_of_ordered (value : YAMLNode) (rawText : jsstring) :
  forall ms lo,
    (forall m, In m ms -> In m (matchAll linePattern rawText)) ->
    orderedFrom lo ms ->
    offsetsOrdered (startPosition value + Z.of_nat lo)
                   (map (lineOffsets value) ms).
Proof.
  induction ms as [|m ms IH]; intros lo Hin Hord; cbn; [exact I|].
  destruct Hord as [Hlo Hord].
  destruct (lineMatch_shape rawText m (Hin m (or_introl eq_refl)))
    as (a & b & _ & Ha & Hb & Hb1 & Hlen & _).
  rewrite Ha, Hb. repeat split; try lia.
  replace (startPosition value + Z.of_nat (index m) + Z.of_nat a
           + Z.of_nat b)
    with (startPosition value + Z.of_nat (index m + matchLength m)) by lia.
  apply IH; [intros m' H'; apply Hin; right; exact H' | exact Hord].
Qed.

(** X11: the ranges of a block literal come in the order of the text,
    each starting at or after the end of the one before it and ending
    after it starts, and the first one starts at or after the end of the
    header line. *)
Theorem line_ranges_ordered (rawText : jsstring) (value : YAMLNode) :
  startsWithBar rawText = true ->
  offsetsOrdered
    (startPosition value + Z.of_nat (runLength dot rawText))
    (map (lineOffsets value) (lineMatches rawText)).
Proof.
  intros Hbar.
  destruct (matchAll_header rawText Hbar) as [rest Hm].
  pose proof (@scan_ordered linePattern rawText None 0%nat 0%nat 0%nat
                (Nat.le_0_l _)) as Hord.
  fold (matchAll linePattern rawText) in Hord.
  unfold lineMatches. rewrite Hm in *. cbn [tl].
  destruct Hord as [_ Hord]. cbn [index matchLength Nat.add] in Hord.
  apply offsets_of_ordered with (rawText := rawText); [|exact Hord].
  intros m H. rewrite Hm. right. exact H.
Qed.

Lemma line_ranges_ordered_witness :
  startsWithBar blankLineRaw = true
  /\ map (lineOffsets blankLineValue) (lineMatches blankLineRaw)
     = [(4, 10); (17, 23)]
  /\ offsetsOrdered
       (startPosition blankLineValue + Z.of_nat (runLength dot blankLineRaw))
       (map (lineOffsets blankLineValue) (lineMatches blankLineRaw)).
Proof.
  assert (H : startsWithBar blankLineRaw = true) by reflexivity.
  split; [exact H | split; [reflexivity|]].
  exact (line_ranges_ordered blankLineRaw blankLineValue H).
Defined.

(** ** The one-shot registration, once settled *)

(** X12: once the flag is set and the activation has settled, whether it
    succeeded or failed, no later event changes anything: a failed
    activation is never tried again and language support is never
    registered afterwards. *)
Theorem settled_bridge_never_changes (st : BridgeState)
  (events : list BridgeEvent) :
  figSupportRegistered st = true ->
  awaitingActivation st = false ->
  runBridge st events = st.
Proof.
  intros Hflag Hwait. induction events as [|e events IH]; [reflexivity|].
  unfold runBridge in *. cbn [fold_left].
  replace (bridgeStep st e) with st; [exact IH|].
  destruct e as [editor installed| |]; cbn [bridgeStep].
  - unfold registerFigSupport. rewrite Hflag.
    destruct editor, installed; reflexivity.
  - rewrite Hwait. reflexivity.
  - rewrite Hwait. reflexivity.
Qed.

Lemma settled_bridge_never_changes_witness :
  let st := runBridge initialBridge [Invoke true true; ActivationRejected] in
  let events := [Invoke true true; ActivationResolved; Invoke true true] in
  figSupportRegistered st = true
  /\ awaitingActivation st = false
  /\ registerCalls st = 0%nat
  /\ runBridge st events = st.
Proof.
  intros st events.
  assert (Hflag : figSupportRegistered st = true) by reflexivity.
  assert (Hwait : awaitingActivation st = false) by reflexivity.
  split; [exact Hflag | split; [exact Hwait | split; [reflexivity|]]].
  exact (settled_bridge_never_changes st events Hflag Hwait).
Defined.

(** ** The diagnostics, hover and completion providers *)

Lemma isPrefix_app_r (a t : jsstring) : isPrefix a (a ++ t) = true.
Proof.
  induction a as [|x a IH]; cbn; [reflexivity|].
  rewrite N.eqb_refl, IH. reflexivity.
Qed.

Lemma endsWith_iff (s suffix : jsstring) :
  endsWith s suffix = true <-> exists t, s = t ++ suffix.
Proof.
  split; [apply endsWith_app|]. intros [t ->].
  unfold endsWith. rewrite rev_app_distr. apply isPrefix_app_r.
Qed.

Lemma replacementLoop_spec (text value : jsstring) :
  forall i,
    exists j,
      replacementLoop text value i = Some j
      /\ (j <= i)%nat
      /\ endsWith text (firstn j value) = true
      /\ (forall j', (j < j' <= i)%nat ->
                     endsWith text (firstn j' value) = false).
Proof.
  induction i as [|i (j & Hj & Hle & Hends & Hmax)]; cbn [replacementLoop].
  - exists 0%nat. cbn [firstn].
    assert (E : endsWith text [] = true) by (apply endsWith_iff; exists text;
                                             rewrite app_nil_r; reflexivity).
    rewrite E. repeat split; auto. intros j' H. lia.
  - destruct (endsWith text (firstn (S i) value)) eqn:E.
    + exists (S i). repeat split; auto. intros j' H. lia.
    + exists j. repeat split; auto.
      intros j' H. destruct (Nat.eq_dec j' (S i)) as [->|];
        [exact E | apply Hmax; lia].
Qed.

Lemma lineRange_ordered (ln a b : Z) :
  a <= b -> lineRange ln a b = mkRange (mkPosition ln a) (mkPosition ln b).
Proof.
  intros H. unfold lineRange, newRange, isBefore. cbn [line character].
  rewrite Z.ltb_irrefl, Z.eqb_refl. cbn [orb andb].
  destruct (a <? b) eqn:Hab; [reflexivity|].
  apply Z.ltb_ge in Hab. assert (a = b) as -> by lia. reflexivity.
Qed.

(** X13: every completion item gets a replacement range: the loop always
    stops at some [i], the largest for which the text before the cursor
    ends with the first [i] code units of the completion, and the range
    goes from [i] columns before the cursor (not before column zero) to
    the cursor. *)
Theorem completion_range_longest_overlap (document : EditorDocument)
  (position : Position) (x : CompletionOption) :
  let value := optionValue x in
  let text :=
    getTextIn document
      (lineRange (line position)
         (Z.max 0 (character position - Z.of_nat (length value)))
         (character position)) in
  exists i,
    itemRange (toCompletionItem document position x)
    = Some (lineRange (line position)
              (Z.max 0 (character position - Z.of_nat i))
              (character position))
    /\ (i <= length value)%nat
    /\ (i <= length text)%nat
    /\ (exists t, text = t ++ firstn i value)
    /\ (forall j t, (i < j <= length value)%nat ->
                    text <> t ++ firstn j value).
Proof.
  intros value text.
  destruct (replacementLoop_spec text value (length value))
    as (i & Hi & Hle & Hends & Hmax).
  exists i. unfold toCompletionItem. cbn [itemRange].
  fold value. fold text. rewrite Hi.
  apply endsWith_iff in Hends. destruct Hends as [t Ht].
  repeat split; auto.
  - rewrite Ht, length_app, length_firstn. lia.
  - exists t. exact Ht.
  - intros j t' Hj E. specialize (Hmax j Hj).
    assert (endsWith text (firstn j value) = true)
      by (apply endsWith_iff; exists t'; exact E).
    congruence.
Qed.

(** X14: when the document gives, for the range the provider asks, the
    text of the cursor's line between its two columns, the replacement
    range of a completion item covers exactly the part of the completion
    already typed before the cursor: the text of the line in the range is
    the first [i] code units of the completion. *)
Theorem completion_range_covers_typed_prefix (document : EditorDocument)
  (position : Position) (x : CompletionOption) (lineText : jsstring) :
  0 <= character position <= Z.of_nat (length lineText) ->
  getTextIn document
    (lineRange (line position)
       (Z.max 0 (character position - Z.of_nat (length (optionValue x))))
       (character position))
  = slice lineText
      (Z.to_nat
         (Z.max 0 (character position - Z.of_nat (length (optionValue x)))))
      (Z.to_nat (character position)) ->
  exists i,
    itemRange (toCompletionItem document position x)
    = Some (mkRange
              (mkPosition (line position) (character position - Z.of_nat i))
              (mkPosition (line position) (character position)))
    /\ (i <= length (optionValue x))%nat
    /\ 0 <= character position - Z.of_nat i
    /\ slice lineText (Z.to_nat (character position - Z.of_nat i))
                      (Z.to_nat (character position))
       = firstn i (optionValue x).
Proof.
  intros Hc Htext.
  destruct (replacementLoop_spec
              (getTextIn document
                 (lineRange (line position)
                    (Z.max 0 (character position
                              - Z.of_nat (length (optionValue x))))
                    (character position)))
              (optionValue x) (length (optionValue x)))
    as (i & Hi & Hle & Hends & _).
  assert (Hrange :
            itemRange (toCompletionItem document position x)
            = Some (lineRange (line position)
                      (Z.max 0 (character position - Z.of_nat i))
                      (character position)))
    by (unfold toCompletionItem; cbn [itemRange]; rewrite Hi; reflexivity).
  apply endsWith_iff in Hends. destruct Hends as [t Ht].
  clear Hi. rewrite Htext in *.
  set (c := character position) in *.
  set (len := length (optionValue x)) in *.
  set (s := Z.to_nat (Z.max 0 (c - Z.of_nat len))) in *.
  assert (Lslice : length (slice lineText s (Z.to_nat c))
                   = (Z.to_nat c - s)%nat).
  { unfold slice. rewrite length_firstn, length_skipn. lia. }
  assert (Lt : (length t + i = Z.to_nat c - s)%nat).
  { rewrite <- Lslice, Ht, length_app, length_firstn. fold len. lia. }
  exists i. repeat split; [|exact Hle|lia|].
  - rewrite Hrange. rewrite Z.max_r by lia. f_equal.
    apply lineRange_ordered. lia.
  - assert (E : skipn (length t) (slice lineText s (Z.to_nat c))
                = firstn i (optionValue x))
      by (rewrite Ht; apply skipn_length_app).
    rewrite <- E. unfold slice.
    rewrite skipn_firstn_comm, skipn_skipn. f_equal; [lia|]. f_equal. lia.
Qed.

Lemma completion_range_covers_typed_prefix_witness :
  let document := lineDocument (js "runs-") in
  let position := mkPosition 0 5 in
  let x := mkCompletionOption (js "runs-on") None in
  0 <= character position <= Z.of_nat (length (js "runs-"))
  /\ itemRange (toCompletionItem document position x)
     = Some (mkRange (mkPosition 0 0) (mkPosition 0 5))
  /\ slice (js "runs-") 0 5 = firstn 5 (js "runs-on").
Proof.
  intros document position x.
  assert (Hc : 0 <= character position <= Z.of_nat (length (js "runs-")))
    by (cbn; lia).
  split; [exact Hc|].
  destruct (completion_range_covers_typed_prefix document position x
              (js "runs-") Hc eq_refl) as (i & Hrange & _).
  split; reflexivity.
Defined.

Section ProviderFacts.
Variable Context : Type.
Variable contextName : Context -> jsstring.
Variable getGitHubContextForDocumentUri :
  jsstring -> Completion (option Context).
Variable parse :
  Context -> jsstring -> jsstring -> jsstring
  -> Completion (list ParserDiagnostic).
Variable hover :
  Context -> jsstring -> jsstring -> jsstring -> Z
  -> Completion (option HoverResult).
Variable complete :
  Context -> jsstring -> jsstring -> jsstring -> Z
  -> Completion (list CompletionOption).




(** X16: [updateDiagnostics] catches nothing, and whether it raises does
    not depend on the collection or on what runs between its parts: after
    the call and the two parts that may follow it the call has ended, and
    it has raised exactly when the file name passes the test and either
    the context provider raises, or it gives a context with which the
    parser raises. *)
Theorem updateDiagnostics_raises_iff (document : option EditorDocument)
  (later latest : EditorDocument)
  (collection0 collection1 collection2 : DiagnosticCollection)
  (e : Exception) :
  let made :=
    updateDiagnostics getGitHubContextForDocumentUri document collection0 in
  let resumed :=
    resumeUpdateDiagnostics contextName parse later (snd made) collection1 in
  let ended :=
    resumeUpdateDiagnostics contextName parse latest (snd resumed)
                            collection2 in
  exists result,
    snd ended = Finished result
    /\ (result = Throw e
        <-> exists d,
              document = Some d
              /\ matches (fileName (textDocument d)) workflowFilePattern
                 = true
              /\ (getGitHubContextForDocumentUri (uri d) = Throw e
                  \/ exists ctx,
                       getGitHubContextForDocumentUri (uri d)
                       = Return (Some ctx)
                       /\ parse ctx (contextName ctx) (fsPath later)
                                (getText (textDocument later)) = Throw e)).
Proof.
  cbv zeta. unfold updateDiagnostics.
  destruct document as [d|].
  2:{ exists (Return tt). split; [reflexivity|].
      split; [discriminate | intros (d & H & _); discriminate]. }
  destruct (matches (fileName (textDocument d)) workflowFilePattern) eqn:Hm.
  2:{ exists (Return tt). split; [reflexivity|].
      split; [discriminate|].
      intros (d' & H & Hm' & _). inversion H; subst. congruence. }
  cbn [snd resumeUpdateDiagnostics].
  destruct (getGitHubContextForDocumentUri (uri d)) as [[ctx|]|e0] eqn:Hctx;
    cbn [snd resumeUpdateDiagnostics].
  - destruct (parse ctx (contextName ctx) (fsPath later)
                    (getText (textDocument later))) as [ds|e1] eqn:Hparse.
    + exists (Return tt). split.
      * destruct (0 <? length ds)%nat; reflexivity.
      * split; [discriminate|].
        intros (d' & H & _ & [H'|(ctx' & H' & Hp)]); inversion H; subst;
          rewrite Hctx in H'; try discriminate.
        inversion H'; subst. rewrite Hparse in Hp. discriminate.
    + exists (Throw e1). split; [reflexivity|]. split.
      * intros E. inversion E; subst. exists d. repeat split; auto.
        right. exists ctx. auto.
      * intros (d' & H & _ & [H'|(ctx' & H' & Hp)]); inversion H; subst;
          rewrite Hctx in H'; try discriminate.
        inversion H'; subst. rewrite Hparse in Hp. inversion Hp.
        reflexivity.
  - exists (Return tt). split; [reflexivity|]. split; [discriminate|].
    intros (d' & H & _ & [H'|(ctx' & H' & _)]); inversion H; subst;
      rewrite Hctx in H'; discriminate.
  - exists (Throw e0). split; [reflexivity|]. split.
    + intros E. inversion E; subst. exists d. repeat split; auto.
    + intros (d' & H & _ & [H'|(ctx' & H' & _)]); inversion H; subst;
        rewrite Hctx in H'; [inversion H'; reflexivity | discriminate].
Qed.

(** X17: [provideHover] never raises, whatever the context provider and
    the parser do; it returns a hover exactly when a context exists and
    the parser gives a result with a non-empty description, and the hover
    shows that description. *)
Theorem provideHover_spec (document : EditorDocument) (position : Position) :
  exists result,
    provideHover contextName getGitHubContextForDocumentUri hover
                 document position = Return result
    /\ forall h,
         result = Some h <->
         exists ctx hoverResult d,
           getGitHubContextForDocumentUri (uri document) = Return (Some ctx)
           /\ hover ctx (contextName ctx) (fsPath document)
                    (getText (textDocument document))
                    (offsetAt (textDocument document) position)
              = Return (Some hoverResult)
           /\ description hoverResult = Some d
           /\ d <> []
           /\ h = mkHover [d].
Proof.
  unfold provideHover.
  destruct (getGitHubContextForDocumentUri (uri document))
    as [[ctx|]|e] eqn:Hctx; cbn [bind tryCatch].
  - destruct (hover ctx (contextName ctx) (fsPath document)
                    (getText (textDocument document))
                    (offsetAt (textDocument document) position))
      as [[hr|]|e] eqn:Hh; cbn [bind tryCatch].
    + destruct hr as [[d|]]; cbn [truthyOpt description].
      * destruct d as [|c d]; cbn [truthy].
        -- exists None. split; [reflexivity|]. intros h.
           split; [discriminate|].
           intros (ctx' & hr' & d' & H1 & H2 & H3 & H4 & _).
           inversion H1; subst. rewrite Hh in H2. inversion H2; subst.
           cbn in H3. inversion H3; subst. contradiction.
        -- exists (Some (mkHover [c :: d])). split; [reflexivity|]. intros h.
           split.
           ++ intros E. inversion E; subst.
              exists ctx, (mkHoverResult (Some (c :: d))), (c :: d).
              repeat split; auto. discriminate.
           ++ intros (ctx' & hr' & d' & H1 & H2 & H3 & _ & ->).
              inversion H1; subst. rewrite Hh in H2. inversion H2; subst.
              cbn in H3. inversion H3; subst. reflexivity.
      * exists None. split; [reflexivity|]. intros h.
        split; [discriminate|].
        intros (ctx' & hr' & d' & H1 & H2 & H3 & _).
        inversion H1; subst. rewrite Hh in H2. inversion H2; subst.
        discriminate.
    + exists None. split; [reflexivity|]. intros h. split; [discriminate|].
      intros (ctx' & hr' & d' & H1 & H2 & _).
      inversion H1; subst. rewrite Hh in H2. discriminate.
    + exists None. split; [reflexivity|]. intros h. split; [discriminate|].
      intros (ctx' & hr' & d' & H1 & H2 & _).
      inversion H1; subst. rewrite Hh in H2. discriminate.
  - exists None. split; [reflexivity|]. intros h. split; [discriminate|].
    intros (ctx' & hr' & d' & H1 & _). discriminate.
  - exists None. split; [reflexivity|]. intros h. split; [discriminate|].
    intros (ctx' & hr' & d' & H1 & _). discriminate.
Qed.

(** X18: [provideCompletionItems] never raises; it returns no item, or one
    item per completion of the parser, in the parser's order, each
    labelled with the completion's value, of kind constant and documented
    exactly when the completion has a non-empty description. *)
Theorem provideCompletionItems_spec (document : EditorDocument)
  (position : Position) :
  exists items,
    provideCompletionItems contextName getGitHubContextForDocumentUri
                           complete document position = Return items
    /\ (items = []
        \/ exists ctx completionResult,
             getGitHubContextForDocumentUri (uri document)
             = Return (Some ctx)
             /\ complete ctx (contextName ctx) (fsPath document)
                         (getText (textDocument document))
                         (offsetAt (textDocument document) position)
                = Return completionResult
             /\ map label items = map optionValue completionResult
             /\ map documentation items
                = map (fun x => truthyOpt (optionDescription x))
                      completionResult
             /\ Forall (fun item => kind item = KindConstant) items).
Proof.
  unfold provideCompletionItems.
  destruct (getGitHubContextForDocumentUri (uri document))
    as [[ctx|]|e] eqn:Hctx; cbn [bind tryCatch];
    try (exists []; split; [reflexivity | left; reflexivity]).
  destruct (complete ctx (contextName ctx) (fsPath document)
                     (getText (textDocument document))
                     (offsetAt (textDocument document) position))
    as [rs|e] eqn:Hc; cbn [bind tryCatch];
    try (exists []; split; [reflexivity | left; reflexivity]).
  destruct (0 <? length rs)%nat; cbn [tryCatch];
    try (exists []; split; [reflexivity | left; reflexivity]).
  exists (map (toCompletionItem document position) rs).
  split; [reflexivity|]. right. exists ctx, rs.
  rewrite !map_map. repeat split; auto.
  apply Forall_forall. intros item Hin. apply in_map_iff in Hin.
  destruct Hin as (y & <- & _). reflexivity.
Qed.
End ProviderFacts.
